(** * Sleeve-colour detection server: a shallow embedding of [server.py]

    The development follows the layout of the Python module:
    - [Binary64]: the double-precision arithmetic behind [int(width * 0.7)]
      and [np.mean(...).astype(int)];
    - [Json]: the values that travel through the handlers (request bodies,
      colours) and the hashable ones that can key a [dict];
    - [Imaging]: a decoded RGBA image, [crop], the opacity mask and the
      per-channel mean;
    - [LruCache]: [functools.lru_cache(maxsize=100)];
    - [Server]: the process state ([SHIRT_OVERRIDES], the memo table of
      [detect_sleeve_color], the requests sent so far), [detect_sleeve_color]
      and the [/add_override] and [/analyze] handlers.

    Logging only writes to the console and is left out.  The lemma modules
    ([Binary64Facts], [ImagingFacts], [LruFacts], [ServerFacts], and further
    on [MemoFacts], [RoundingFacts], [EndpointFacts]) and the statements
    about the program come after the definitions. *)

From Stdlib Require Import ZArith QArith Qcanon String List Lia Permutation.
From stdpp Require Import base gmap strings list countable.

Local Open Scope Z_scope.

(* ===================================================================== *)
(** * Double-precision arithmetic *)
(* ===================================================================== *)

Module Binary64.

(** A finite non-negative double is [significand * 2 ^ exponent] with a
    significand of at most 53 bits.  Every quantity the server feeds to
    floating point lies between 0.1 and the size of an image, far from the
    subnormal and overflow ranges, so the exponent is left unbounded. *)
Record float := mk_float { significand : Z; exponent : Z }.

Definition zero : float := mk_float 0 0.

(** [pow2 k] is [2 ^ k] for [k >= 0] and [1] otherwise: the factor that
    clears a negative exponent from one side of a ratio. *)
Definition pow2 (k : Z) : Z := 2 ^ Z.max 0 k.

(** [floor (log2 (n / d))] for positive [n] and [d]. *)
Definition floor_log2_ratio (n d : Z) : Z :=
  let k := Z.log2 n - Z.log2 d in
  if d * pow2 k <=? n * pow2 (- k) then k else k - 1.

(** Round the rational [n / d] ([n >= 0], [d > 0]) to the nearest double,
    ties to the even significand: what IEEE 754 prescribes for the result
    of [*] and [/] and for a decimal literal. *)
Definition round_ratio (n d : Z) : float :=
  if n =? 0 then zero
  else
    let e := floor_log2_ratio n d - 52 in
    let N := n * pow2 (- e) in
    let D := d * pow2 e in
    let q := N / D in
    let r := N mod D in
    let up := (D <? 2 * r) || ((D =? 2 * r) && Z.odd q) in
    mk_float (if up then q + 1 else q) e.

(** [float(w)] for a Python [int]. *)
Definition of_int (w : Z) : float := round_ratio w 1.

(** The decimal literal [0.d], [d] a digit. *)
Definition tenths (d : Z) : float := round_ratio d 10.

Definition mul (a b : float) : float :=
  let e := exponent a + exponent b in
  round_ratio (significand a * significand b * pow2 e) (pow2 (- e)).

(** [int(x)] and [.astype(int)]: truncation, here of a non-negative value. *)
Definition trunc (a : float) : Z :=
  if 0 <=? exponent a then significand a * 2 ^ exponent a
  else significand a / 2 ^ (- exponent a).

(** [int(dim * 0.d)] as written in [detection_areas]: the integer is
    converted to a double, multiplied by the literal, and truncated. *)
Definition int_mul_tenths (dim d : Z) : Z := trunc (mul (of_int dim) (tenths d)).

(** [int(total / count)] with [total] and [count] held exactly. *)
Definition int_div (total count : Z) : Z := trunc (round_ratio total count).

(** [ratio_ge n d f]: the ratio [n / d] is at least [2 ^ f]. *)
Definition ratio_ge (n d f : Z) : Prop := d * pow2 f <= n * pow2 (- f).

(** The value order on doubles, with both exponents cleared. *)
Definition float_le (a b : float) : Prop :=
  significand a * pow2 (exponent a) * pow2 (- exponent b)
  <= significand b * pow2 (exponent b) * pow2 (- exponent a).

End Binary64.

(* ===================================================================== *)
(** * JSON values and dictionary keys *)
(* ===================================================================== *)

Module Json.

(** What [request.json] can hold and what [jsonify] is given.  A Python
    [str] is a Rocq string, one character per code point.  [JFloat]
    carries the exact value of a finite double. *)
#[warnings="-register-all"]
Inductive value :=
| JNull
| JBool (b : bool)
| JInt (z : Z)
| JFloat (q : Q)
| JStr (s : string)
| JArr (items : list value)
| JObj (members : list (string * value)).

(** A parsed object keeps the last binding of a repeated member name. *)
Fixpoint obj_get (name : string) (members : list (string * value)) : option value :=
  match members with
  | [] => None
  | (k, v) :: rest =>
      match obj_get name rest with
      | Some v' => Some v'
      | None => if String.eqb k name then Some v else None
      end
  end.

Fixpoint obj_keys (members : list (string * value)) : list string :=
  match members with
  | [] => []
  | (k, _) :: rest =>
      let ks := obj_keys rest in
      if existsb (String.eqb k) ks then ks else k :: ks
  end.

(** [bool(x)]: [None], [False], zero, and the empty string, list and dict
    are false. *)
Definition truthy (x : value) : bool :=
  match x with
  | JNull => false
  | JBool b => b
  | JInt z => negb (z =? 0)
  | JFloat q => negb (Qeq_bool q 0)
  | JStr s => negb (String.eqb s "")
  | JArr items => negb (Nat.eqb (List.length items) 0)
  | JObj members => negb (Nat.eqb (List.length (obj_keys members)) 0)
  end.

(** [len(x)]; [None] stands for the [TypeError] raised on a value without
    a length. *)
Definition len (x : value) : option nat :=
  match x with
  | JStr s => Some (String.length s)
  | JArr items => Some (List.length items)
  | JObj members => Some (List.length (obj_keys members))
  | JNull | JBool _ | JInt _ | JFloat _ => None
  end.

(** Keys of a [dict] up to Python's [==]: [True == 1 == 1.0], and a
    string never equals a number. *)
Inductive pykey :=
| KNone
| KStr (s : string)
| KNum (q : Qc).

(** [hash(x)] succeeds on scalars; lists and dicts raise [TypeError]
    ([None] here). *)
Definition hashable (x : value) : option pykey :=
  match x with
  | JNull => Some KNone
  | JBool b => Some (KNum (Q2Qc (if b then 1 else 0)))
  | JInt z => Some (KNum (Q2Qc (inject_Z z)))
  | JFloat q => Some (KNum (Q2Qc q))
  | JStr s => Some (KStr s)
  | JArr _ | JObj _ => None
  end.

#[global] Instance pykey_eq_dec : EqDecision pykey.
Proof. solve_decision. Defined.

#[global] Instance pykey_countable : Countable pykey.
Proof.
  refine (inj_countable'
            (fun k => match k with
                      | KNone => inl tt
                      | KStr s => inr (inl s)
                      | KNum q => inr (inr q)
                      end)
            (fun x => match x with
                      | inl _ => KNone
                      | inr (inl s) => KStr s
                      | inr (inr q) => KNum q
                      end) _).
  by intros [].
Defined.

(** The list [[r, g, b]] of Python ints. *)
Definition rgb (r g b : Z) : value := JArr [JInt r; JInt g; JInt b].

(** A ColorTriple: three integer channels, each in [0,255]. *)
Definition is_color_triple (x : value) : Prop :=
  exists r g b, x = rgb r g b /\ 0 <= r <= 255 /\ 0 <= g <= 255 /\ 0 <= b <= 255.

End Json.

(* ===================================================================== *)
(** * Decoded images, regions and the colour aggregate *)
(* ===================================================================== *)

Module Imaging.
Import Json.

Record pixel := mk_pixel { red : Z; green : Z; blue : Z; alpha : Z }.

(** The image after [img.convert("RGBA")]: its [size] and its pixels. *)
Record image := mk_image { width : Z; height : Z; getpixel : Z -> Z -> pixel }.

(** What decoding guarantees: a non-empty grid of 8-bit channels. *)
Definition pixel_ok (p : pixel) : Prop :=
  0 <= red p <= 255 /\ 0 <= green p <= 255 /\ 0 <= blue p <= 255 /\ 0 <= alpha p <= 255.

Definition image_ok (img : image) : Prop :=
  0 < width img /\ 0 < height img /\
  forall x y, 0 <= x < width img -> 0 <= y < height img -> pixel_ok (getpixel img x y).

(** A crop box [(left, upper, right, lower)]. *)
Definition box : Type := Z * Z * Z * Z.

(** The integers [lo, lo+1, ..., hi-1]. *)
Definition zrange (lo hi : Z) : list Z :=
  map (fun i => lo + Z.of_nat i) (seq 0 (Z.to_nat (hi - lo))).

(** Pixels outside the image read as transparent black, the padding
    [crop] uses. *)
Definition pixel_at (img : image) (x y : Z) : pixel :=
  if (0 <=? x) && (x <? width img) && (0 <=? y) && (y <? height img)
  then getpixel img x y
  else mk_pixel 0 0 0 0.

(** [np.array(img.crop(area))]: the rows of the box, top to bottom.  A box
    without area gives an array without pixels.  Pillow rejects a box whose
    right or lower edge lies before its left or upper edge; the boxes of
    [detection_areas] never are of that kind
    ([ImagingFacts.detection_areas_ordered]). *)
Definition crop (img : image) (area : box) : list (list pixel) :=
  let '(x0, y0, x1, y1) := area in
  map (fun y => map (fun x => pixel_at img x y) (zrange x0 x1)) (zrange y0 y1).

(** [np.array(img)]. *)
Definition np_array (img : image) : list (list pixel) :=
  crop img (0, 0, width img, height img).

(** [pixels[pixels[:, :, 3] > 128]]: the opaque pixels in row-major order. *)
Definition opaque_pixels (pixels : list (list pixel)) : list pixel :=
  List.filter (fun p => 128 <? alpha p) (concat pixels).

Definition detection_areas (width height : Z) : list box :=
  let f := Binary64.int_mul_tenths in
  [ (f width 7, f height 4, f width 9, f height 6);
    (f width 1, f height 4, f width 3, f height 6);
    (f width 1, f height 3, f width 9, f height 7);
    (f width 6, f height 2, f width 8, f height 4) ].

(** The [for] loop over the areas: the opaque pixels of each region are
    appended to the pool. *)
Definition scan_areas (img : image) (areas : list box) : list pixel :=
  fold_left
    (fun all_opaque_pixels area =>
       let region_opaque_pixels := opaque_pixels (crop img area) in
       if (0 <? List.length region_opaque_pixels)%nat
       then all_opaque_pixels ++ region_opaque_pixels
       else all_opaque_pixels)
    areas [].

Definition channel_sum (ch : pixel -> Z) (ps : list pixel) : Z :=
  fold_right Z.add 0 (map ch ps).

(** [np.mean([p[:3] for p in ps], axis=0).astype(int).tolist()].  The
    float64 accumulator holds a sum of 8-bit values exactly as long as it
    stays below [2^53], which more than [2^45] pixels would be needed to
    exceed; the quotient is the one operation that rounds. *)
Definition mean_color (ps : list pixel) : value :=
  let n := Z.of_nat (List.length ps) in
  rgb (Binary64.int_div (channel_sum red ps) n)
      (Binary64.int_div (channel_sum green ps) n)
      (Binary64.int_div (channel_sum blue ps) n).

Definition white : value := rgb 255 255 255.

(** The body of the [with Image.open(...)] block for a given list of
    areas: pool the regions, fall back to the whole image, average. *)
Definition analyse_with (areas : list box) (img : image) : value :=
  let all_opaque_pixels := scan_areas img areas in
  if (List.length all_opaque_pixels =? 0)%nat then
    let all_opaque_pixels := opaque_pixels (np_array img) in
    if (List.length all_opaque_pixels =? 0)%nat then white
    else mean_color all_opaque_pixels
  else mean_color all_opaque_pixels.

Definition analyse (img : image) : value :=
  analyse_with (detection_areas (width img) (height img)) img.

End Imaging.

(* ===================================================================== *)
(** * [functools.lru_cache(maxsize=100)] *)
(* ===================================================================== *)

Module LruCache.
Section Entries.
Context {V : Type}.

Definition maxsize : nat := 100.

(** The entries of the memo table, most recently used first. *)
Fixpoint cache_get (key : string) (c : list (string * V)) : option V :=
  match c with
  | [] => None
  | (k, v) :: rest => if String.eqb k key then Some v else cache_get key rest
  end.

Definition remove (key : string) (c : list (string * V)) : list (string * V) :=
  List.filter (fun e => negb (String.eqb (fst e) key)) c.

(** A hit moves the entry to the most recent position. *)
Definition touch (key : string) (v : V) (c : list (string * V)) : list (string * V) :=
  (key, v) :: remove key c.

(** A miss stores the new result; a full table first drops its least
    recently used entry. *)
Definition store (key : string) (v : V) (c : list (string * V)) : list (string * V) :=
  if (maxsize <=? List.length c)%nat then (key, v) :: removelast c
  else (key, v) :: c.
End Entries.
End LruCache.

(* ===================================================================== *)
(** * The server *)
(* ===================================================================== *)

Module Server.
Import Json Imaging.

(** ** The outside world *)

Inductive request_failure := ConnectionError | TimedOut.

(** What [requests.get(url, headers=headers, timeout=15)] does: it raises,
    or it returns a response with a status code and a body. *)
Inductive http_outcome :=
| RequestFailed (f : request_failure)
| Response (status_code : Z) (content : list Byte.byte).

(** The remote asset source, and Pillow's decoder: [image_open] is
    [Image.open(io.BytesIO(content))] followed by [convert("RGBA")], [None]
    when the bytes are not a readable image. *)
Record world := mk_world {
  http_get : string -> http_outcome;
  image_open : list Byte.byte -> option image
}.

(** ** Process state *)

Record state := mk_state {
  SHIRT_OVERRIDES : gmap pykey value;
  lru : list (string * value);          (* memo table of [detect_sleeve_color] *)
  requests_sent : list string           (* URLs requested so far, oldest first *)
}.

Definition initial : state := mk_state ∅ [] [].

Definition set_overrides (m : gmap pykey value) (st : state) : state :=
  mk_state m (lru st) (requests_sent st).

Definition set_lru (c : list (string * value)) (st : state) : state :=
  mk_state (SHIRT_OVERRIDES st) c (requests_sent st).

Definition record_request (url : string) (st : state) : state :=
  mk_state (SHIRT_OVERRIDES st) (lru st) (requests_sent st ++ [url]).

(** ** Detection *)

Inductive exn :=
| RequestException (f : request_failure)
| HTTPError (status_code : Z)
| ImageError.

Inductive outcome :=
| Returned (v : value)
| Raised (e : exn).

Definition asset_url (texture_id : string) : string :=
  ("https://assetdelivery.roblox.com/v1/asset/?id=" ++ texture_id)%string.

(** [response.raise_for_status()] raises on 4xx and 5xx. *)
Definition raise_for_status (status_code : Z) : bool :=
  (400 <=? status_code) && (status_code <? 600).

(** The [try] block of [detect_sleeve_color]. *)
Definition detect_try (w : world) (texture_id : string) (st : state) : outcome * state :=
  match SHIRT_OVERRIDES st !! KStr texture_id with
  | Some color => (Returned color, st)
  | None =>
      let url := asset_url texture_id in
      let st := record_request url st in
      match http_get w url with
      | RequestFailed f => (Raised (RequestException f), st)
      | Response status_code content =>
          if raise_for_status status_code then (Raised (HTTPError status_code), st)
          else
            match image_open w content with
            | None => (Raised ImageError, st)
            | Some img => (Returned (analyse img), st)
            end
      end
  end.

(** The undecorated function: [except Exception] turns every failure into
    white. *)
Definition detect_sleeve_color_wrapped (w : world) (texture_id : string) (st : state)
  : value * state :=
  match detect_try w texture_id st with
  | (Returned v, st') => (v, st')
  | (Raised _, st') => (white, st')
  end.

(** [detect_sleeve_color] as callers see it, behind [@lru_cache]: the memo
    table is looked up first, and the function body runs on a miss only. *)
Definition detect_sleeve_color (w : world) (texture_id : string) (st : state)
  : value * state :=
  match LruCache.cache_get texture_id (lru st) with
  | Some v => (v, set_lru (LruCache.touch texture_id v (lru st)) st)
  | None =>
      let '(v, st') := detect_sleeve_color_wrapped w texture_id st in
      (v, set_lru (LruCache.store texture_id v (lru st')) st')
  end.

(** ** [POST /add_override] *)

(** The three replies of the handler; message texts are left out. *)
Inductive response :=
| OverrideAdded (total_overrides : nat)   (* 200, success: true *)
| InvalidParameters                       (* 400, success: false *)
| InternalError.                          (* 500, success: false *)

Definition status_code_of (r : response) : Z :=
  match r with
  | OverrideAdded _ => 200
  | InvalidParameters => 400
  | InternalError => 500
  end.

Definition success_of (r : response) : bool :=
  match r with
  | OverrideAdded _ => true
  | _ => false
  end.

(** [data.get(name)] on a parsed body; [None] when [data] has no [get]
    (it is not an object), which raises [AttributeError]. *)
Definition data_get (data : value) (name : string) : option value :=
  match data with
  | JObj members => Some (default JNull (obj_get name members))
  | _ => None
  end.

Definition add_override (data : value) (st : state) : response * state :=
  match data_get data "texture_id", data_get data "color" with
  | Some texture_id, Some color =>
      if negb (truthy texture_id) || negb (truthy color) then (InvalidParameters, st)
      else
        match len color with
        | None => (InternalError, st)
        | Some n =>
            if negb (n =? 3)%nat then (InvalidParameters, st)
            else
              match hashable texture_id with
              | None => (InternalError, st)
              | Some key =>
                  let st := set_overrides (<[key := color]> (SHIRT_OVERRIDES st)) st in
                  (OverrideAdded (size (SHIRT_OVERRIDES st)), st)
              end
        end
  | _, _ => (InternalError, st)
  end.

(** The body [{"texture_id": id, "color": color}]. *)
Definition override_body (texture_id : string) (color : value) : value :=
  JObj [("texture_id"%string, JStr texture_id); ("color"%string, color)].

(** ** Request sequences *)

Inductive op :=
| Detect (w : world) (texture_id : string)
| AddOverride (data : value).

Definition step (st : state) (o : op) : state :=
  match o with
  | Detect w texture_id => snd (detect_sleeve_color w texture_id st)
  | AddOverride data => snd (add_override data st)
  end.

Definition run (ops : list op) (st : state) : state := fold_left step ops st.

(** ** Vocabulary of the statements *)

(** The source answers the request for [texture_id] with a success status
    and a body that decodes to [img]. *)
Definition delivers (w : world) (texture_id : string) (img : image) : Prop :=
  exists status_code content,
    http_get w (asset_url texture_id) = Response status_code content /\
    raise_for_status status_code = false /\
    image_open w content = Some img.

(** The request for [texture_id] fails: no response, an error status, or
    a body that is not an image. *)
Definition fetch_fails (w : world) (texture_id : string) : Prop :=
  match http_get w (asset_url texture_id) with
  | RequestFailed _ => True
  | Response status_code content =>
      raise_for_status status_code = true \/ image_open w content = None
  end.

(** Pillow only ever hands back well-formed images. *)
Definition world_ok (w : world) : Prop :=
  forall content img, image_open w content = Some img -> image_ok img.

Definition overrides_ok (st : state) : Prop :=
  map_Forall (fun _ v => is_color_triple v) (SHIRT_OVERRIDES st).

Definition cache_ok (st : state) : Prop :=
  Forall (fun e => is_color_triple (snd e)) (lru st).

Definition state_ok (st : state) : Prop := overrides_ok st /\ cache_ok st.

(** A request that cannot bring an out-of-range colour into the state. *)
Definition op_ok (o : op) : Prop :=
  match o with
  | Detect w _ => world_ok w
  | AddOverride data =>
      forall color, data_get data "color" = Some color -> is_color_triple color
  end.

(** [texture_id] is in the memo table after every request of [ops]. *)
Fixpoint stays_cached (texture_id : string) (ops : list op) (st : state) : Prop :=
  match ops with
  | [] => True
  | o :: rest =>
      is_Some (LruCache.cache_get texture_id (lru (step st o))) /\
      stays_cached texture_id rest (step st o)
  end.

(** ** Fixtures *)

Definition solid (w h : Z) (p : pixel) : image := mk_image w h (fun _ _ => p).

Definition gradient (w h : Z) : image :=
  mk_image w h (fun x y => mk_pixel (x mod 256) (y mod 256) ((x + y) mod 256) 255).

(** A source that answers every request with the same status and body,
    and a decoder that reads every body as the same image. *)
Definition fixed_world (status_code : Z) (img : option image) : world :=
  mk_world (fun _ => Response status_code []) (fun _ => img).

Definition offline : world :=
  mk_world (fun _ => RequestFailed ConnectionError) (fun _ => None).

Definition navy : image := solid 10 10 (mk_pixel 10 20 30 255).

(** ** [GET /analyze] *)

(** [request.args.get(name, default)]: the first value given for [name] in
    the query string. *)
Fixpoint args_get (args : list (string * string)) (name default : string) : string :=
  match args with
  | [] => default
  | (k, v) :: rest => if String.eqb k name then v else args_get rest name default
  end.

(** [\d] on a code point below 256: the ASCII digits. *)
Definition is_digit (c : Ascii.ascii) : bool :=
  (48 <=? Ascii.nat_of_ascii c)%nat && (Ascii.nat_of_ascii c <=? 57)%nat.

Definition newline : Ascii.ascii := Ascii.ascii_of_nat 10.

(** [\d*$] from the current position: [$] matches at the end of the string
    and also just before a newline that ends the string. *)
Fixpoint digits_to_end (s : string) : bool :=
  match s with
  | EmptyString => true
  | String c rest =>
      if is_digit c then digits_to_end rest
      else Ascii.eqb c newline && String.eqb rest ""
  end.

(** [re.match(r"^\d+$", s)] as a truth value. *)
Definition re_match_numeric (s : string) : bool :=
  match s with
  | EmptyString => false
  | String c rest => is_digit c && digits_to_end rest
  end.

(** The two replies of the handler; [server_timestamp] (the clock) is left
    out, [sleeve_type] is always ["short"]. *)
Inductive analyze_response :=
| Analyzed (color : value) (texture_id : string)   (* 200, valid: true *)
| NotNumeric.                                       (* 400, valid: false *)


Definition analyze_shirt (w : world) (args : list (string * string)) (st : state)
  : analyze_response * state :=
  let texture_id := args_get args "texture_id" "" in
  if negb (re_match_numeric texture_id) then (NotNumeric, st)
  else
    let '(sleeve_color, st') := detect_sleeve_color w texture_id st in
    (Analyzed sleeve_color texture_id, st').

(** ** Vocabulary of the further statements *)

Fixpoint all_digits (s : string) : bool :=
  match s with
  | EmptyString => true
  | String c rest => is_digit c && all_digits rest
  end.

(** The identifiers a sequence of requests asks [detect_sleeve_color] for,
    in order. *)
Definition detected (ops : list op) : list string :=
  flat_map (fun o => match o with Detect _ k => [k] | AddOverride _ => [] end) ops.

(** The identifiers other than [texture_id] among them, as a set. *)
Definition others_detected (texture_id : string) (ops : list op) : gset string :=
  list_to_set (List.filter (fun k => negb (String.eqb k texture_id)) (detected ops)).

(** The memo table holds each key once, and at most [maxsize] keys. *)
Definition memo_ok (st : state) : Prop :=
  NoDup (map fst (lru st)) /\ (List.length (lru st) <= LruCache.maxsize)%nat.

(** [navy] with one red pixel in the top-left corner. *)
Definition navy_red_corner : image :=
  mk_image 10 10 (fun x y => if (x =? 0) && (y =? 0)
                              then mk_pixel 255 0 0 255
                              else mk_pixel 10 20 30 255).

(** One request for each of the hundred identifiers ["\000"] ... ["c"]. *)
Definition hundred_detections (w : world) : list op :=
  map (fun n => Detect w (String (Ascii.ascii_of_nat n) "")) (seq 0 100).

End Server.

(* ===================================================================== *)
(** * Properties of the arithmetic *)
(* ===================================================================== *)

Module Binary64Facts.
Import Binary64.

Lemma pow2_pos k : 0 < pow2 k.
Proof. unfold pow2. apply Z.pow_pos_nonneg; lia. Qed.

Lemma pow2_of_nonneg k : 0 <= k -> pow2 k = 2 ^ k.
Proof. intros Hk. unfold pow2. f_equal. lia. Qed.

Lemma pow2_of_nonpos k : k <= 0 -> pow2 k = 1.
Proof. intros Hk. unfold pow2. replace (Z.max 0 k) with 0 by lia. reflexivity. Qed.

(** The products are those of the machine, not of the rationals:
    [int(90 * 0.7)] is 62 and [int(10 * 0.7)] is 7. *)
Example int_mul_tenths_90 : int_mul_tenths 90 7 = 62.
Proof. reflexivity. Qed.

Example int_mul_tenths_10 : int_mul_tenths 10 7 = 7.
Proof. reflexivity. Qed.

Example tenths_7 : tenths 7 = mk_float 6305039478318694 (-53).
Proof. reflexivity. Qed.

Example int_div_254_3 : int_div 254 3 = 84.
Proof. reflexivity. Qed.

(** A ratio below [2^53] has a binary logarithm of at most 52, so its
    significand is scaled up, never down. *)
Lemma floor_log2_ratio_le n d :
  0 < n -> 0 < d -> n < 2 ^ 53 * d -> floor_log2_ratio n d <= 52.
Proof.
  intros Hn Hd Hlt. unfold floor_log2_ratio.
  set (k := Z.log2 n - Z.log2 d).
  destruct (Z.leb_spec (d * pow2 k) (n * pow2 (- k))) as [Hle | _].
  - destruct (Z_le_gt_dec k 52) as [|Hk]; [assumption | exfalso].
    rewrite (pow2_of_nonneg k), (pow2_of_nonpos (- k)) in Hle by lia.
    assert (2 ^ 53 <= 2 ^ k) by (apply Z.pow_le_mono_r; lia).
    nia.
  - destruct (Z_le_gt_dec k 53) as [|Hk]; [lia | exfalso].
    destruct (Z.log2_spec n Hn) as [Hn2 _].
    destruct (Z.log2_spec d Hd) as [_ Hd2].
    assert (Hpow : 2 ^ 53 * 2 ^ Z.succ (Z.log2 d) <= 2 ^ Z.log2 n).
    { rewrite <- Z.pow_add_r by (pose proof (Z.log2_nonneg d); lia).
      apply Z.pow_le_mono_r; subst k; lia. }
    assert (0 < 2 ^ Z.succ (Z.log2 d)) by (apply Z.pow_pos_nonneg; pose proof (Z.log2_nonneg d); lia).
    nia.
Qed.

(** Shape of the rounded quotient of a ratio below [2^53]: the numerator
    is scaled by [P = 2^(-e)], divided, and bumped by one only when the
    division left a remainder. *)
Lemma round_ratio_small n d :
  0 < n -> 0 < d -> n < 2 ^ 53 * d ->
  exists e q,
    e <= 0 /\ round_ratio n d = mk_float q e /\
    (q = n * 2 ^ (- e) / d \/ (q = n * 2 ^ (- e) / d + 1 /\ 0 < (n * 2 ^ (- e)) mod d)).
Proof.
  intros Hn Hd Hlt.
  pose proof (floor_log2_ratio_le n d Hn Hd Hlt) as He.
  unfold round_ratio.
  destruct (Z.eqb_spec n 0) as [|_]; [lia|].
  set (e := floor_log2_ratio n d - 52) in *.
  assert (He0 : e <= 0) by lia.
  rewrite (pow2_of_nonneg (- e)), (pow2_of_nonpos e) by lia.
  rewrite Z.mul_1_r.
  exists e. eexists. split; [exact He0|]. split; [reflexivity|].
  destruct ((d <? 2 * ((n * 2 ^ (- e)) mod d)) || _) eqn:Hup; [right | left; reflexivity].
  split; [reflexivity|].
  apply orb_true_iff in Hup as [Hup | Hup].
  - apply Z.ltb_lt in Hup.
    pose proof (Z.mod_pos_bound (n * 2 ^ (- e)) d Hd). lia.
  - apply andb_true_iff in Hup as [Hup _]. apply Z.eqb_eq in Hup. lia.
Qed.

Lemma trunc_zero : trunc zero = 0.
Proof. reflexivity. Qed.

Lemma trunc_scaled q e : e <= 0 -> trunc (mk_float q e) = q / 2 ^ (- e).
Proof.
  intros He. unfold trunc; simpl.
  destruct (Z.leb_spec 0 e) as [H0 | H0]; [|reflexivity].
  assert (e = 0) as -> by lia. simpl. rewrite Z.div_1_r. lia.
Qed.

(** An exact quotient comes back unchanged. *)
Lemma int_div_exact c d : 0 <= c < 2 ^ 53 -> 0 < d -> int_div (c * d) d = c.
Proof.
  intros Hc Hd. unfold int_div.
  destruct (Z.eq_dec c 0) as [-> | Hc0]; [reflexivity|].
  destruct (round_ratio_small (c * d) d) as (e & q & He & -> & Hq); [nia | lia | nia |].
  rewrite trunc_scaled by exact He.
  assert (HP : 0 < 2 ^ (- e)) by (apply Z.pow_pos_nonneg; lia).
  replace (c * d * 2 ^ (- e)) with (c * 2 ^ (- e) * d) in Hq by ring.
  rewrite Z.div_mul, Z.mod_mul in Hq by lia.
  destruct Hq as [-> | [_ Hr]]; [|lia].
  apply Z.div_mul; lia.
Qed.

(** The truncated mean of 8-bit values is an 8-bit value. *)
Lemma int_div_range n d : 0 <= n <= 255 * d -> 0 < d -> 0 <= int_div n d <= 255.
Proof.
  intros Hn Hd. unfold int_div.
  destruct (Z.eq_dec n 0) as [-> | Hn0];
    [unfold round_ratio; rewrite Z.eqb_refl, trunc_zero; lia|].
  destruct (round_ratio_small n d) as (e & q & He & -> & Hq); [lia | lia | lia |].
  rewrite trunc_scaled by exact He.
  set (P := 2 ^ (- e)) in *.
  assert (HP : 0 < P) by (apply Z.pow_pos_nonneg; lia).
  clearbody P.
  pose proof (Z.div_mod (n * P) d ltac:(lia)) as Hdm.
  pose proof (Z.mod_pos_bound (n * P) d Hd) as Hr.
  assert (Hq0 : 0 <= n * P / d) by (apply Z.div_pos; nia).
  assert (Hqle : 0 <= q <= 255 * P).
  { destruct Hq as [-> | [-> Hpos]]; split; try lia.
    - apply Z.div_le_upper_bound; [lia|].
      replace (d * (255 * P)) with (255 * d * P) by ring.
      apply Z.mul_le_mono_nonneg_r; lia.
    - assert (Hle : n * P <= 255 * d * P) by (apply Z.mul_le_mono_nonneg_r; lia).
      assert (n * P / d < 255 * P); [|lia].
      apply Z.div_lt_upper_bound; [lia|].
      destruct (Z.eq_dec (n * P) (d * (255 * P))) as [Heq | Hne]; [|lia].
      rewrite Heq, (Z.mul_comm d), Z.mod_mul in Hpos by lia. lia. }
  split.
  - apply Z.div_pos; lia.
  - apply Z.div_le_upper_bound; lia.
Qed.

(** ** Rounding is monotone *)

(** [2^a / 2^b = 2^c / 2^d] whenever [a - b = c - d]. *)
Lemma pow2_ratio a b c d :
  a - b = c - d ->
  pow2 a * pow2 (- b) * (pow2 d * pow2 (- c)) = pow2 c * pow2 (- d) * (pow2 b * pow2 (- a)).
Proof.
  intros H. unfold pow2. rewrite <- !Z.pow_add_r by lia. f_equal. lia.
Qed.

Lemma pow2_succ k : 0 <= k -> pow2 (k + 1) = 2 * pow2 k.
Proof. intros Hk. rewrite !pow2_of_nonneg by lia. rewrite Z.pow_add_r by lia. lia. Qed.

Lemma pow2_mono a b : a <= b -> pow2 a <= pow2 b.
Proof. intros H. unfold pow2. apply Z.pow_le_mono_r; lia. Qed.

Lemma ratio_ge_anti n d f f' : 0 <= n -> 0 <= d -> f' <= f -> ratio_ge n d f -> ratio_ge n d f'.
Proof.
  unfold ratio_ge. intros Hn Hd Hf H.
  pose proof (pow2_mono f' f Hf). pose proof (pow2_mono (- f) (- f') ltac:(lia)).
  pose proof (pow2_pos f'). pose proof (pow2_pos (- f)).
  transitivity (d * pow2 f); [apply Z.mul_le_mono_nonneg_l; lia|].
  transitivity (n * pow2 (- f)); [exact H|].
  apply Z.mul_le_mono_nonneg_l; lia.
Qed.

Lemma ratio_ge_mono n1 d1 n2 d2 f :
  0 < d1 -> 0 < d2 -> n1 * d2 <= n2 * d1 -> ratio_ge n1 d1 f -> ratio_ge n2 d2 f.
Proof.
  unfold ratio_ge. intros Hd1 Hd2 Hle H.
  pose proof (pow2_pos f) as HP. pose proof (pow2_pos (- f)) as HQ.
  apply (Z.mul_le_mono_pos_l _ _ d1 Hd1).
  transitivity (n1 * d2 * pow2 (- f)).
  - replace (d1 * (d2 * pow2 f)) with (d2 * (d1 * pow2 f)) by ring.
    replace (n1 * d2 * pow2 (- f)) with (d2 * (n1 * pow2 (- f))) by ring.
    apply Z.mul_le_mono_nonneg_l; lia.
  - replace (d1 * (n2 * pow2 (- f))) with (n2 * d1 * pow2 (- f)) by ring.
    apply Z.mul_le_mono_nonneg_r; lia.
Qed.

(** [floor_log2_ratio] is the floor of the binary logarithm. *)
Lemma floor_log2_ratio_spec n d :
  0 < n -> 0 < d ->
  ratio_ge n d (floor_log2_ratio n d) /\ ~ ratio_ge n d (floor_log2_ratio n d + 1).
Proof.
  intros Hn Hd. unfold floor_log2_ratio, ratio_ge.
  destruct (Z.log2_spec n Hn) as [Hn1 Hn2]. destruct (Z.log2_spec d Hd) as [Hd1 Hd2].
  pose proof (Z.log2_nonneg n) as Ha. pose proof (Z.log2_nonneg d) as Hb.
  rewrite Z.pow_succ_r in Hn2, Hd2 by lia.
  set (a := Z.log2 n) in *. set (b := Z.log2 d) in *.
  set (k := a - b).
  assert (HA : 0 < 2 ^ a) by (apply Z.pow_pos_nonneg; lia).
  assert (HB : 0 < 2 ^ b) by (apply Z.pow_pos_nonneg; lia).
  destruct (Z.leb_spec (d * pow2 k) (n * pow2 (- k))) as [Hle | Hgt].
  - split; [exact Hle|].
    destruct (Z_le_gt_dec 0 k) as [Hk | Hk].
    + rewrite pow2_succ by lia. rewrite (pow2_of_nonpos (- (k + 1))) by lia.
      rewrite (pow2_of_nonneg k) by lia.
      assert (2 ^ a = 2 ^ b * 2 ^ k) by (rewrite <- Z.pow_add_r by lia; f_equal; lia).
      assert (0 < 2 ^ k) by (apply Z.pow_pos_nonneg; lia). nia.
    + rewrite (pow2_of_nonpos (k + 1)) by lia.
      rewrite (pow2_of_nonneg (- (k + 1))) by lia.
      assert (2 ^ b = 2 * (2 ^ a * 2 ^ (- (k + 1)))).
      { rewrite <- Z.pow_add_r, <- Z.pow_succ_r by lia. f_equal. lia. }
      assert (0 < 2 ^ (- (k + 1))) by (apply Z.pow_pos_nonneg; lia). nia.
  - replace (k - 1 + 1) with k by lia. split; [|lia].
    destruct (Z_le_gt_dec 1 k) as [Hk | Hk].
    + rewrite (pow2_of_nonneg (k - 1)) by lia. rewrite (pow2_of_nonpos (- (k - 1))) by lia.
      assert (2 ^ a = 2 * (2 ^ b * 2 ^ (k - 1))).
      { rewrite <- Z.pow_add_r, <- Z.pow_succ_r by lia. f_equal. lia. }
      assert (0 < 2 ^ (k - 1)) by (apply Z.pow_pos_nonneg; lia). nia.
    + rewrite (pow2_of_nonpos (k - 1)) by lia. rewrite (pow2_of_nonneg (- (k - 1))) by lia.
      assert (2 * (2 ^ a * 2 ^ (- (k - 1))) = 2 * (2 * 2 ^ b)).
      { f_equal. rewrite <- Z.pow_add_r, <- Z.pow_succ_r by lia. f_equal. lia. }
      assert (0 < 2 ^ (- (k - 1))) by (apply Z.pow_pos_nonneg; lia). nia.
Qed.

Lemma floor_log2_ratio_mono n1 d1 n2 d2 :
  0 < n1 -> 0 < d1 -> 0 < n2 -> 0 < d2 -> n1 * d2 <= n2 * d1 ->
  floor_log2_ratio n1 d1 <= floor_log2_ratio n2 d2.
Proof.
  intros Hn1 Hd1 Hn2 Hd2 Hle.
  destruct (floor_log2_ratio_spec n1 d1 Hn1 Hd1) as [Hge1 _].
  destruct (floor_log2_ratio_spec n2 d2 Hn2 Hd2) as [_ Hlt2].
  destruct (Z_le_gt_dec (floor_log2_ratio n1 d1) (floor_log2_ratio n2 d2)) as [|Hgt];
    [assumption | exfalso].
  apply Hlt2. apply (ratio_ge_mono n1 d1); try assumption.
  apply (ratio_ge_anti _ _ (floor_log2_ratio n1 d1)); try lia. exact Hge1.
Qed.

(** After scaling, the quotient that becomes the significand has exactly
    53 bits. *)
Lemma round_ratio_scaled n d :
  0 < n -> 0 < d ->
  let e := floor_log2_ratio n d - 52 in
  0 < d * pow2 e /\
  2 ^ 52 * (d * pow2 e) <= n * pow2 (- e) /\
  n * pow2 (- e) < 2 ^ 53 * (d * pow2 e).
Proof.
  intros Hn Hd e.
  destruct (floor_log2_ratio_spec n d Hn Hd) as [Hge Hlt].
  unfold ratio_ge in *. set (f := floor_log2_ratio n d) in *.
  pose proof (pow2_pos e) as HR. pose proof (pow2_pos (- e)) as HS.
  pose proof (pow2_pos f) as HP. pose proof (pow2_pos (- f)) as HQ.
  pose proof (pow2_pos (f + 1)) as HP'. pose proof (pow2_pos (- (f + 1))) as HQ'.
  pose proof (pow2_ratio f e 52 0 ltac:(lia)) as I1.
  pose proof (pow2_ratio (f + 1) e 53 0 ltac:(lia)) as I2.
  change (pow2 0) with 1 in I1, I2. change (pow2 (- 52)) with 1 in I1.
  change (pow2 (- 53)) with 1 in I2. change (- 0) with 0 in I1, I2.
  change (pow2 0) with 1 in I1, I2.
  change (pow2 52) with (2 ^ 52) in I1. change (pow2 53) with (2 ^ 53) in I2.
  rewrite !Z.mul_1_r in I1, I2.
  split; [nia|]. split.
  - apply (Z.mul_le_mono_pos_l _ _ (pow2 (- f)) HQ).
    transitivity (d * pow2 f * pow2 (- e)); [rewrite <- Z.mul_assoc, I1; nia|].
    replace (pow2 (- f) * (n * pow2 (- e))) with (n * pow2 (- f) * pow2 (- e)) by ring.
    apply Z.mul_le_mono_nonneg_r; lia.
  - apply (Z.mul_lt_mono_pos_l (pow2 (- (f + 1))) _ _ HQ').
    apply Z.lt_le_trans with (d * pow2 (f + 1) * pow2 (- e)).
    + replace (pow2 (- (f + 1)) * (n * pow2 (- e)))
        with (n * pow2 (- (f + 1)) * pow2 (- e)) by ring.
      apply Z.mul_lt_mono_pos_r; lia.
    + rewrite <- Z.mul_assoc, I2. nia.
Qed.

Lemma div_cross N1 D1 N2 D2 :
  0 < D1 -> 0 < D2 -> N1 * D2 <= N2 * D1 ->
  N1 / D1 <= N2 / D2 /\
  (N1 / D1 = N2 / D2 -> (N1 mod D1) * D2 <= (N2 mod D2) * D1).
Proof.
  intros HD1 HD2 Hle.
  pose proof (Z.div_mod N1 D1 ltac:(lia)) as E1. pose proof (Z.mod_pos_bound N1 D1 HD1) as R1.
  pose proof (Z.div_mod N2 D2 ltac:(lia)) as E2. pose proof (Z.mod_pos_bound N2 D2 HD2) as R2.
  set (q1 := N1 / D1) in *. set (r1 := N1 mod D1) in *.
  set (q2 := N2 / D2) in *. set (r2 := N2 mod D2) in *.
  split.
  - destruct (Z_le_gt_dec q1 q2) as [|Hgt]; [assumption | exfalso].
    assert (D1 * D2 * (q2 + 1) <= D1 * D2 * q1) by (apply Z.mul_le_mono_nonneg_l; nia).
    nia.
  - intros Heq. rewrite Heq in E1. nia.
Qed.

Lemma round_ratio_nonneg n d : 0 <= n -> 0 < d -> 0 <= significand (round_ratio n d).
Proof.
  intros Hn Hd. unfold round_ratio.
  destruct (Z.eqb_spec n 0) as [|Hn0]; [simpl; lia|].
  destruct (round_ratio_scaled n d ltac:(lia) Hd) as (HD & _ & _).
  set (e := floor_log2_ratio n d - 52) in *.
  assert (0 <= n * pow2 (- e) / (d * pow2 e)).
  { apply Z.div_pos; [|exact HD]. pose proof (pow2_pos (- e)). nia. }
  destruct (_ || _); simpl; lia.
Qed.

(** Rounding to nearest, ties to even, preserves the order of the ratios. *)
Lemma round_ratio_mono n1 d1 n2 d2 :
  0 <= n1 -> 0 < d1 -> 0 < d2 -> n1 * d2 <= n2 * d1 ->
  float_le (round_ratio n1 d1) (round_ratio n2 d2).
Proof.
  intros Hn1 Hd1 Hd2 Hle.
  assert (Hn2 : 0 <= n2) by nia.
  pose proof (round_ratio_nonneg n2 d2 Hn2 Hd2) as Hs2.
  unfold float_le.
  destruct (Z.eq_dec n1 0) as [-> | Hn10].
  { change (round_ratio 0 d1) with zero. unfold zero. cbn [significand exponent].
    transitivity 0; [lia|].
    repeat apply Z.mul_nonneg_nonneg; try lia; apply Z.lt_le_incl, pow2_pos. }
  assert (Hn2' : 0 < n2) by nia.
  pose proof (floor_log2_ratio_mono n1 d1 n2 d2 ltac:(lia) Hd1 Hn2' Hd2 Hle) as Hf.
  destruct (round_ratio_scaled n1 d1 ltac:(lia) Hd1) as (HD1 & Hlo1 & Hhi1).
  destruct (round_ratio_scaled n2 d2 Hn2' Hd2) as (HD2 & Hlo2 & Hhi2).
  clear Hs2. unfold round_ratio.
  destruct (Z.eqb_spec n1 0) as [|_]; [lia|].
  destruct (Z.eqb_spec n2 0) as [|_]; [lia|].
  set (e1 := floor_log2_ratio n1 d1 - 52) in *.
  set (e2 := floor_log2_ratio n2 d2 - 52) in *.
  set (N1 := n1 * pow2 (- e1)) in *. set (D1 := d1 * pow2 e1) in *.
  set (N2 := n2 * pow2 (- e2)) in *. set (D2 := d2 * pow2 e2) in *.
  assert (Hq1 : 2 ^ 52 <= N1 / D1 < 2 ^ 53).
  { split; [apply Z.div_le_lower_bound; lia | apply Z.div_lt_upper_bound; lia]. }
  assert (Hq2 : 2 ^ 52 <= N2 / D2 < 2 ^ 53).
  { split; [apply Z.div_le_lower_bound; lia | apply Z.div_lt_upper_bound; lia]. }
  set (up1 := (D1 <? 2 * (N1 mod D1)) || ((D1 =? 2 * (N1 mod D1)) && Z.odd (N1 / D1))).
  set (up2 := (D2 <? 2 * (N2 mod D2)) || ((D2 =? 2 * (N2 mod D2)) && Z.odd (N2 / D2))).
  simpl significand. simpl exponent.
  set (q1 := if up1 then N1 / D1 + 1 else N1 / D1).
  set (q2 := if up2 then N2 / D2 + 1 else N2 / D2).
  assert (Hq1' : 0 <= q1 <= 2 ^ 53) by (subst q1; destruct up1; lia).
  assert (Hq2' : 2 ^ 52 <= q2) by (subst q2; destruct up2; lia).
  pose proof (pow2_pos e1) as HP1. pose proof (pow2_pos (- e1)) as HQ1.
  pose proof (pow2_pos e2) as HP2. pose proof (pow2_pos (- e2)) as HQ2.
  destruct (Z.eq_dec e1 e2) as [Heq | Hne].
  - (* same binade: compare quotients and remainders *)
    assert (Hcross : N1 * D2 <= N2 * D1).
    { subst N1 N2 D1 D2. rewrite <- Heq.
      replace (n1 * pow2 (- e1) * (d2 * pow2 e1)) with (n1 * d2 * (pow2 (- e1) * pow2 e1)) by ring.
      replace (n2 * pow2 (- e1) * (d1 * pow2 e1)) with (n2 * d1 * (pow2 (- e1) * pow2 e1)) by ring.
      apply Z.mul_le_mono_nonneg_r; nia. }
    destruct (div_cross N1 D1 N2 D2 HD1 HD2 Hcross) as [Hq Hr].
    pose proof (Z.mod_pos_bound N1 D1 HD1) as R1.
    pose proof (Z.mod_pos_bound N2 D2 HD2) as R2.
    assert (Hqq : q1 <= q2).
    { subst q1 q2. destruct up1 eqn:U1; destruct up2 eqn:U2; try lia.
      destruct (Z.eq_dec (N1 / D1) (N2 / D2)) as [Hsame | ?]; [exfalso | lia].
      specialize (Hr Hsame). subst up1 up2.
      apply orb_false_iff in U2 as [U2a U2b]. apply Z.ltb_ge in U2a.
      apply orb_true_iff in U1 as [U1 | U1].
      - apply Z.ltb_lt in U1. nia.
      - apply andb_true_iff in U1 as [U1 Hodd]. apply Z.eqb_eq in U1.
        rewrite Hsame in Hodd. rewrite Hodd, andb_true_r in U2b.
        apply Z.eqb_neq in U2b. nia. }
    rewrite <- Heq. apply Z.mul_le_mono_nonneg_r; [nia|].
    apply Z.mul_le_mono_nonneg_r; lia.
  - (* a lower binade: every value in it is below every value of the higher *)
    assert (He : e1 < e2) by lia.
    pose proof (pow2_ratio e1 e2 0 (e2 - e1) ltac:(lia)) as Hid.
    rewrite (pow2_of_nonpos (- (e2 - e1))) in Hid by lia.
    rewrite (pow2_of_nonneg (e2 - e1)) in Hid by lia.
    change (pow2 0) with 1 in Hid. change (pow2 (- 0)) with 1 in Hid.
    assert (2 <= 2 ^ (e2 - e1)).
    { change 2 with (2 ^ 1) at 1. apply Z.pow_le_mono_r; lia. }
    set (X := pow2 e1 * pow2 (- e2)) in *. set (Y := pow2 e2 * pow2 (- e1)) in *.
    assert (0 < X) by (subst X; nia).
    rewrite <- !Z.mul_assoc. fold X. fold Y.
    assert (2 * X <= Y) by nia.
    transitivity (2 ^ 53 * X); [apply Z.mul_le_mono_nonneg_r; lia|].
    transitivity (2 ^ 52 * Y); [change (2 ^ 53) with (2 ^ 52 * 2); nia|].
    apply Z.mul_le_mono_nonneg_r; nia.
Qed.

Lemma trunc_div a : trunc a = significand a * pow2 (exponent a) / pow2 (- exponent a).
Proof.
  unfold trunc. destruct (Z.leb_spec 0 (exponent a)) as [H | H].
  - rewrite (pow2_of_nonneg (exponent a)), (pow2_of_nonpos (- exponent a)) by lia.
    by rewrite Z.div_1_r.
  - rewrite (pow2_of_nonpos (exponent a)), (pow2_of_nonneg (- exponent a)) by lia.
    by rewrite Z.mul_1_r.
Qed.

Lemma trunc_mono a b : float_le a b -> trunc a <= trunc b.
Proof.
  unfold float_le. intros H. rewrite !trunc_div.
  apply div_cross; try apply pow2_pos. lia.
Qed.

Lemma mul_mono a b c :
  0 <= significand a -> 0 <= significand b -> float_le b c -> float_le (mul a b) (mul a c).
Proof.
  unfold float_le. intros Ha Hb Hbc. unfold mul.
  set (Eb := exponent a + exponent b). set (Ec := exponent a + exponent c).
  pose proof (pow2_pos Eb). pose proof (pow2_pos (- Eb)).
  pose proof (pow2_pos Ec). pose proof (pow2_pos (- Ec)).
  pose proof (pow2_pos (exponent b)). pose proof (pow2_pos (- exponent b)).
  pose proof (pow2_pos (exponent c)). pose proof (pow2_pos (- exponent c)).
  apply round_ratio_mono; [nia | lia | lia |].
  pose proof (pow2_ratio Eb Ec (exponent b) (exponent c) ltac:(subst Eb Ec; lia)) as Hid.
  set (X := pow2 Eb * pow2 (- Ec)) in *. set (Y := pow2 Ec * pow2 (- Eb)) in *.
  set (X' := pow2 (exponent b) * pow2 (- exponent c)) in *.
  set (Y' := pow2 (exponent c) * pow2 (- exponent b)) in *.
  assert (HY' : 0 < Y') by (subst Y'; nia).
  assert (HY : 0 < Y) by (subst Y; nia).
  assert (Hbc' : significand b * X' <= significand c * Y') by (subst X' Y'; lia).
  assert (Hkey : significand b * X <= significand c * Y).
  { apply (Z.mul_le_mono_pos_r _ _ Y' HY').
    replace (significand b * X * Y') with (significand b * (X * Y')) by ring.
    rewrite Hid.
    replace (significand b * (X' * Y)) with (significand b * X' * Y) by ring.
    replace (significand c * Y * Y') with (significand c * Y' * Y) by ring.
    apply Z.mul_le_mono_nonneg_r; lia. }
  replace (significand a * significand b * pow2 Eb * pow2 (- Ec))
    with (significand a * (significand b * X)) by (subst X; ring).
  replace (significand a * significand c * pow2 Ec * pow2 (- Eb))
    with (significand a * (significand c * Y)) by (subst Y; ring).
  apply Z.mul_le_mono_nonneg_l; lia.
Qed.

(** [int(dim * 0.d1) <= int(dim * 0.d2)] for digits [d1 <= d2]. *)
Lemma int_mul_tenths_mono dim d1 d2 :
  0 <= dim -> 0 <= d1 <= d2 -> int_mul_tenths dim d1 <= int_mul_tenths dim d2.
Proof.
  intros Hdim Hd. unfold int_mul_tenths, of_int, tenths.
  apply trunc_mono, mul_mono.
  - apply round_ratio_nonneg; lia.
  - apply round_ratio_nonneg; lia.
  - apply round_ratio_mono; lia.
Qed.

End Binary64Facts.

(* ===================================================================== *)
(** * Properties of the image analysis *)
(* ===================================================================== *)

Module ImagingFacts.
Import Json Imaging.

(** ** The pool of opaque pixels *)

(** Appending only the non-empty regions is appending every region. *)
Lemma scan_areas_flat_map img areas :
  scan_areas img areas = flat_map (fun area => opaque_pixels (crop img area)) areas.
Proof.
  unfold scan_areas.
  set (region := fun area => opaque_pixels (crop img area)).
  assert (Hacc : forall acc,
             fold_left
               (fun all_opaque_pixels area =>
                  if (0 <? List.length (region area))%nat
                  then all_opaque_pixels ++ region area
                  else all_opaque_pixels) areas acc
             = acc ++ flat_map region areas).
  { induction areas as [|area rest IH]; intros acc; simpl.
    - by rewrite app_nil_r.
    - rewrite IH, app_assoc. f_equal.
      destruct (region area); simpl; [by rewrite app_nil_r | reflexivity]. }
  exact (Hacc []).
Qed.

(** The boxes of a 585 x 559 shirt template. *)
Example detection_areas_585_559 :
  detection_areas 585 559 =
    [(409, 223, 526, 335); (58, 223, 175, 335); (58, 167, 526, 391); (351, 111, 468, 223)].
Proof. reflexivity. Qed.

(** No box of [detection_areas] is inverted. *)
Lemma detection_areas_ordered w h :
  0 <= w -> 0 <= h ->
  Forall (fun area : box => let '(x0, y0, x1, y1) := area in x0 <= x1 /\ y0 <= y1)
         (detection_areas w h).
Proof.
  intros Hw Hh. unfold detection_areas.
  repeat (apply Forall_cons; [split; apply Binary64Facts.int_mul_tenths_mono; lia|]).
  apply Forall_nil.
Qed.

Lemma in_zrange x lo hi : In x (zrange lo hi) <-> lo <= x < hi.
Proof.
  unfold zrange. rewrite in_map_iff. split.
  - intros (i & <- & Hi). apply in_seq in Hi. lia.
  - intros Hx. exists (Z.to_nat (x - lo)). rewrite in_seq. lia.
Qed.

Lemma in_crop img x0 y0 x1 y1 p :
  In p (concat (crop img (x0, y0, x1, y1))) <->
  exists x y, x0 <= x < x1 /\ y0 <= y < y1 /\ p = pixel_at img x y.
Proof.
  unfold crop. rewrite in_concat. split.
  - intros (row & Hrow & Hp).
    apply in_map_iff in Hrow as (y & <- & Hy).
    apply in_map_iff in Hp as (x & <- & Hx).
    apply in_zrange in Hx, Hy. eauto.
  - intros (x & y & Hx & Hy & ->).
    exists (map (fun x => pixel_at img x y) (zrange x0 x1)). split.
    + apply in_map_iff. exists y. split; [reflexivity | by apply in_zrange].
    + apply in_map_iff. exists x. split; [reflexivity | by apply in_zrange].
Qed.

(** An opaque pixel of a crop is a pixel of the image: the padding around
    the image is transparent. *)
Lemma in_opaque_crop img area p :
  In p (opaque_pixels (crop img area)) ->
  exists x y, 0 <= x < width img /\ 0 <= y < height img /\
              p = getpixel img x y /\ 128 < alpha p.
Proof.
  destruct area as [[[x0 y0] x1] y1].
  unfold opaque_pixels. rewrite filter_In, in_crop.
  intros [(x & y & _ & _ & ->) Ha]. apply Z.ltb_lt in Ha.
  unfold pixel_at in *.
  destruct ((0 <=? x) && (x <? width img) && (0 <=? y) && (y <? height img)) eqn:Hin.
  - exists x, y. rewrite !andb_true_iff, !Z.leb_le, !Z.ltb_lt in Hin.
    split; [lia|]. split; [lia|]. split; [reflexivity | exact Ha].
  - simpl in Ha. lia.
Qed.

Lemma in_scan_areas img areas p :
  In p (scan_areas img areas) ->
  exists x y, 0 <= x < width img /\ 0 <= y < height img /\
              p = getpixel img x y /\ 128 < alpha p.
Proof.
  rewrite scan_areas_flat_map, in_flat_map.
  intros (area & _ & Hp). by apply in_opaque_crop in Hp.
Qed.

Lemma in_opaque_full img p :
  In p (opaque_pixels (np_array img)) ->
  exists x y, 0 <= x < width img /\ 0 <= y < height img /\
              p = getpixel img x y /\ 128 < alpha p.
Proof. apply in_opaque_crop. Qed.

Lemma in_opaque_np_array img x y :
  0 <= x < width img -> 0 <= y < height img -> 128 < alpha (getpixel img x y) ->
  In (getpixel img x y) (opaque_pixels (np_array img)).
Proof.
  intros Hx Hy Ha. unfold opaque_pixels, np_array.
  rewrite filter_In, in_crop. split; [|by apply Z.ltb_lt].
  exists x, y. split; [lia|]. split; [lia|].
  unfold pixel_at.
  replace ((0 <=? x) && (x <? width img) && (0 <=? y) && (y <? height img)) with true;
    [reflexivity|].
  symmetry. rewrite !andb_true_iff, !Z.leb_le, !Z.ltb_lt. lia.
Qed.

Lemma nil_of_no_member {A} (l : list A) : (forall x, ~ In x l) -> l = [].
Proof. destruct l as [|a l]; [reflexivity|]. intros H. destruct (H a). by left. Qed.

Lemma length_eqb_0 {A} (l : list A) : (List.length l =? 0)%nat = true <-> l = [].
Proof. destruct l; simpl; split; congruence. Qed.

(** ** Sums, means and their order-independence *)

Lemma channel_sum_perm ch ps ps' :
  Permutation ps ps' -> channel_sum ch ps = channel_sum ch ps'.
Proof.
  unfold channel_sum.
  induction 1 as [|p l l' _ IH|p q l|l l' l'' _ IH1 _ IH2]; simpl; lia.
Qed.

Lemma mean_color_perm ps ps' : Permutation ps ps' -> mean_color ps = mean_color ps'.
Proof.
  intros Hp. unfold mean_color.
  rewrite (Permutation_length Hp).
  by rewrite !(channel_sum_perm _ _ _ Hp).
Qed.

Lemma scan_areas_perm img areas areas' :
  Permutation areas areas' -> Permutation (scan_areas img areas) (scan_areas img areas').
Proof. intros Hp. rewrite !scan_areas_flat_map. by apply Permutation_flat_map. Qed.

Lemma analyse_with_perm img areas areas' :
  Permutation areas areas' -> analyse_with areas img = analyse_with areas' img.
Proof.
  intros Hp. apply (scan_areas_perm img) in Hp. unfold analyse_with.
  rewrite (Permutation_length Hp), (mean_color_perm _ _ Hp). reflexivity.
Qed.

Lemma channel_sum_const ch c ps :
  (forall p, In p ps -> ch p = c) -> channel_sum ch ps = c * Z.of_nat (List.length ps).
Proof.
  unfold channel_sum. induction ps as [|p ps IH]; intros H; simpl List.length; simpl.
  - lia.
  - rewrite IH by (intros; apply H; by right).
    rewrite (H p) by (by left). lia.
Qed.

Lemma channel_sum_range ch ps :
  (forall p, In p ps -> 0 <= ch p <= 255) ->
  0 <= channel_sum ch ps <= 255 * Z.of_nat (List.length ps).
Proof.
  unfold channel_sum. induction ps as [|p ps IH]; intros H; simpl List.length; simpl.
  - lia.
  - specialize (IH ltac:(intros; apply H; by right)).
    specialize (H p ltac:(by left)). lia.
Qed.

(** The mean of pixels that all carry the colour [(r, g, b)] is that
    colour: the division is exact, so nothing is rounded. *)
Lemma mean_color_const r g b ps :
  ps <> [] -> 0 <= r <= 255 -> 0 <= g <= 255 -> 0 <= b <= 255 ->
  (forall p, In p ps -> red p = r /\ green p = g /\ blue p = b) ->
  mean_color ps = rgb r g b.
Proof.
  intros Hne Hr Hg Hb Hall. unfold mean_color.
  assert (Hn : 0 < Z.of_nat (List.length ps)) by (destruct ps; [done | simpl; lia]).
  rewrite (channel_sum_const red r), (channel_sum_const green g),
    (channel_sum_const blue b) by (intros p Hp; by destruct (Hall p Hp) as (? & ? & ?)).
  rewrite !Binary64Facts.int_div_exact by (cbn; lia).
  reflexivity.
Qed.

Lemma mean_color_triple ps :
  ps <> [] ->
  (forall p, In p ps -> 0 <= red p <= 255 /\ 0 <= green p <= 255 /\ 0 <= blue p <= 255) ->
  is_color_triple (mean_color ps).
Proof.
  intros Hne Hall. unfold mean_color.
  assert (Hn : 0 < Z.of_nat (List.length ps)) by (destruct ps; [done | simpl; lia]).
  eexists _, _, _. split; [reflexivity|].
  repeat split; apply Binary64Facts.int_div_range; try exact Hn;
    apply channel_sum_range; intros p Hp; by destruct (Hall p Hp) as (? & ? & ?).
Qed.

Lemma white_triple : is_color_triple white.
Proof. exists 255, 255, 255. split; [reflexivity | lia]. Qed.

End ImagingFacts.

(* ===================================================================== *)
(** * Properties of the memo table and of the handlers *)
(* ===================================================================== *)

Module LruFacts.
Import LruCache.
Section Entries.
Context {V : Type}.
Implicit Types (c : list (string * V)) (key : string) (v : V).

Lemma cache_get_touch key v c : cache_get key (touch key v c) = Some v.
Proof. unfold touch; simpl. by rewrite String.eqb_refl. Qed.

Lemma cache_get_store key v c : cache_get key (store key v c) = Some v.
Proof. unfold store. destruct (maxsize <=? _)%nat; simpl; by rewrite String.eqb_refl. Qed.

Lemma cache_get_remove_ne key key' c :
  key <> key' -> cache_get key (remove key' c) = cache_get key c.
Proof.
  intros Hne. unfold remove. induction c as [|[k v] c IH]; simpl; [reflexivity|].
  destruct (String.eqb_spec k key') as [-> | Hk]; simpl.
  - destruct (String.eqb_spec key' key) as [-> | _]; [done | exact IH].
  - rewrite IH. reflexivity.
Qed.

Lemma cache_get_removelast key v c :
  cache_get key (removelast c) = Some v -> cache_get key c = Some v.
Proof.
  induction c as [|[k x] c IH]; [done|].
  destruct c as [|e c']; [done|].
  change (removelast ((k, x) :: e :: c')) with ((k, x) :: removelast (e :: c')).
  simpl cache_get at 1. simpl cache_get at 2.
  destruct (String.eqb k key); [done | exact IH].
Qed.

Lemma cache_get_In key v c : cache_get key c = Some v -> In (key, v) c.
Proof.
  induction c as [|[k x] c IH]; simpl; [done|].
  destruct (String.eqb_spec k key) as [-> | _].
  - intros [= ->]. by left.
  - intros H. right. by apply IH.
Qed.

Lemma In_removelast (e : string * V) c : In e (removelast c) -> In e c.
Proof.
  induction c as [|a c IH]; [done|].
  destruct c as [|b c']; [done|].
  change (removelast (a :: b :: c')) with (a :: removelast (b :: c')).
  intros [-> | H]; [by left | right; by apply IH].
Qed.

Lemma In_touch (e : string * V) key v c : In e (touch key v c) -> e = (key, v) \/ In e c.
Proof.
  unfold touch, remove. intros [<- | H]; [by left|].
  right. by apply filter_In in H as [H _].
Qed.

Lemma In_store (e : string * V) key v c : In e (store key v c) -> e = (key, v) \/ In e c.
Proof.
  unfold store. destruct (maxsize <=? _)%nat; intros [<- | H]; auto.
  right. by apply In_removelast.
Qed.
End Entries.
End LruFacts.

Module ServerFacts.
Import Json Imaging Server LruCache LruFacts ImagingFacts.

(** ** The function body *)

Lemma detect_try_override w id st color :
  SHIRT_OVERRIDES st !! KStr id = Some color ->
  detect_try w id st = (Returned color, st).
Proof. intros H. unfold detect_try. by rewrite H. Qed.

Lemma detect_try_delivers w id st img :
  SHIRT_OVERRIDES st !! KStr id = None -> delivers w id img ->
  detect_try w id st = (Returned (analyse img), record_request (asset_url id) st).
Proof.
  intros Hov (status_code & content & Hget & Hst & Himg).
  unfold detect_try. by rewrite Hov, Hget, Hst, Himg.
Qed.

Lemma detect_try_fails w id st :
  SHIRT_OVERRIDES st !! KStr id = None -> fetch_fails w id ->
  exists e, detect_try w id st = (Raised e, record_request (asset_url id) st).
Proof.
  intros Hov Hf. unfold detect_try, fetch_fails in *. rewrite Hov.
  destruct (http_get w (asset_url id)) as [f | status_code content]; [eauto|].
  destruct (raise_for_status status_code); [eauto|].
  destruct Hf as [? | ->]; [done | eauto].
Qed.

(** The body touches neither the override table nor the memo table. *)
Lemma wrapped_frame w id st :
  SHIRT_OVERRIDES (snd (detect_sleeve_color_wrapped w id st)) = SHIRT_OVERRIDES st /\
  lru (snd (detect_sleeve_color_wrapped w id st)) = lru st.
Proof.
  unfold detect_sleeve_color_wrapped, detect_try.
  destruct (SHIRT_OVERRIDES st !! KStr id); [done|].
  destruct (http_get w (asset_url id)) as [f | status_code content]; [done|].
  destruct (raise_for_status status_code); [done|].
  by destruct (image_open w content).
Qed.

(** What the body can return: the stored override, white, or the analysis
    of a decoded image. *)
Lemma wrapped_result w id st :
  SHIRT_OVERRIDES st !! KStr id = Some (fst (detect_sleeve_color_wrapped w id st)) \/
  fst (detect_sleeve_color_wrapped w id st) = white \/
  exists content img, image_open w content = Some img /\
                      fst (detect_sleeve_color_wrapped w id st) = analyse img.
Proof.
  unfold detect_sleeve_color_wrapped, detect_try.
  destruct (SHIRT_OVERRIDES st !! KStr id); [by left|].
  destruct (http_get w (asset_url id)) as [f | status_code content]; [right; by left|].
  destruct (raise_for_status status_code); [right; by left|].
  destruct (image_open w content) as [img|] eqn:Himg; [|right; by left].
  right; right. eauto.
Qed.

(** ** The analysis of one image *)

Lemma analyse_with_transparent areas img :
  (forall x y, 0 <= x < width img -> 0 <= y < height img -> alpha (getpixel img x y) <= 128) ->
  analyse_with areas img = white.
Proof.
  intros Ha. unfold analyse_with.
  assert (Hscan : scan_areas img areas = []).
  { apply nil_of_no_member. intros p Hp.
    apply in_scan_areas in Hp as (x & y & Hx & Hy & -> & Hp).
    specialize (Ha x y Hx Hy). lia. }
  assert (Hfull : opaque_pixels (np_array img) = []).
  { apply nil_of_no_member. intros p Hp.
    apply in_opaque_full in Hp as (x & y & Hx & Hy & -> & Hp).
    specialize (Ha x y Hx Hy). lia. }
  by rewrite Hscan, Hfull.
Qed.

Lemma analyse_with_solid areas img r g b :
  image_ok img ->
  (forall x y, 0 <= x < width img -> 0 <= y < height img ->
     red (getpixel img x y) = r /\ green (getpixel img x y) = g /\
     blue (getpixel img x y) = b /\ 128 < alpha (getpixel img x y)) ->
  analyse_with areas img = rgb r g b.
Proof.
  intros (Hw & Hh & Hpx) Hsolid.
  assert (Hrgb : 0 <= r <= 255 /\ 0 <= g <= 255 /\ 0 <= b <= 255).
  { destruct (Hsolid 0 0 ltac:(lia) ltac:(lia)) as (<- & <- & <- & _).
    destruct (Hpx 0 0 ltac:(lia) ltac:(lia)) as (? & ? & ? & _). done. }
  destruct Hrgb as (Hr & Hg & Hb).
  assert (Hpool : forall ps,
             (forall p, In p ps -> exists x y, 0 <= x < width img /\ 0 <= y < height img /\
                                      p = getpixel img x y /\ 128 < alpha p) ->
             ps <> [] -> mean_color ps = rgb r g b).
  { intros ps Hps Hne. apply mean_color_const; try done.
    intros p Hp. destruct (Hps p Hp) as (x & y & Hx & Hy & -> & _).
    destruct (Hsolid x y Hx Hy) as (? & ? & ? & _). done. }
  unfold analyse_with.
  destruct (List.length (scan_areas img areas) =? 0)%nat eqn:Hlen.
  - assert (Hin : In (getpixel img 0 0) (opaque_pixels (np_array img))).
    { apply in_opaque_np_array; [lia | lia |]. by destruct (Hsolid 0 0) as (_ & _ & _ & ?); [lia | lia |]. }
    destruct (List.length (opaque_pixels (np_array img)) =? 0)%nat eqn:Hfull.
    + apply length_eqb_0 in Hfull. rewrite Hfull in Hin. destruct Hin.
    + apply Hpool.
      * intros p Hp. by apply in_opaque_full in Hp.
      * intros Hnil. rewrite Hnil in Hfull. done.
  - apply Hpool.
    + intros p Hp. by apply in_scan_areas in Hp.
    + intros Hnil. rewrite Hnil in Hlen. done.
Qed.

Lemma analyse_with_triple areas img : image_ok img -> is_color_triple (analyse_with areas img).
Proof.
  intros (_ & _ & Hpx).
  assert (Hpool : forall ps,
             (forall p, In p ps -> exists x y, 0 <= x < width img /\ 0 <= y < height img /\
                                      p = getpixel img x y /\ 128 < alpha p) ->
             ps <> [] -> is_color_triple (mean_color ps)).
  { intros ps Hps Hne. apply mean_color_triple; [done|].
    intros p Hp. destruct (Hps p Hp) as (x & y & Hx & Hy & -> & _).
    destruct (Hpx x y Hx Hy) as (? & ? & ? & _). done. }
  unfold analyse_with.
  destruct (List.length (scan_areas img areas) =? 0)%nat eqn:Hlen.
  - destruct (List.length (opaque_pixels (np_array img)) =? 0)%nat eqn:Hfull.
    + apply white_triple.
    + apply Hpool.
      * intros p Hp. by apply in_opaque_full in Hp.
      * intros Hnil. rewrite Hnil in Hfull. done.
  - apply Hpool.
    + intros p Hp. by apply in_scan_areas in Hp.
    + intros Hnil. rewrite Hnil in Hlen. done.
Qed.

(** ** The decorated function *)

Lemma detect_hit w id st v :
  cache_get id (lru st) = Some v ->
  detect_sleeve_color w id st = (v, set_lru (touch id v (lru st)) st).
Proof. intros H. unfold detect_sleeve_color. by rewrite H. Qed.

Lemma detect_miss w id st :
  cache_get id (lru st) = None ->
  detect_sleeve_color w id st =
    (fst (detect_sleeve_color_wrapped w id st),
     set_lru (store id (fst (detect_sleeve_color_wrapped w id st)) (lru st))
             (snd (detect_sleeve_color_wrapped w id st))).
Proof.
  intros H. unfold detect_sleeve_color. rewrite H.
  destruct (wrapped_frame w id st) as [_ Hl].
  destruct (detect_sleeve_color_wrapped w id st) as [v st']; simpl in *. by rewrite Hl.
Qed.

(** Whatever a call returns is in the memo table afterwards. *)
Lemma detect_memoises w id st :
  cache_get id (lru (snd (detect_sleeve_color w id st))) = Some (fst (detect_sleeve_color w id st)).
Proof.
  destruct (cache_get id (lru st)) as [v|] eqn:Hc.
  - rewrite (detect_hit _ _ _ _ Hc); simpl. apply cache_get_touch.
  - rewrite (detect_miss _ _ _ Hc); simpl. apply cache_get_store.
Qed.

Lemma detect_overrides w id st :
  SHIRT_OVERRIDES (snd (detect_sleeve_color w id st)) = SHIRT_OVERRIDES st.
Proof.
  destruct (cache_get id (lru st)) as [v|] eqn:Hc.
  - by rewrite (detect_hit _ _ _ _ Hc).
  - rewrite (detect_miss _ _ _ Hc); simpl. apply wrapped_frame.
Qed.

Lemma detect_fresh_delivers w id st img :
  SHIRT_OVERRIDES st !! KStr id = None -> cache_get id (lru st) = None ->
  delivers w id img -> fst (detect_sleeve_color w id st) = analyse img.
Proof.
  intros Hov Hc Hd. rewrite (detect_miss _ _ _ Hc); simpl.
  unfold detect_sleeve_color_wrapped. by rewrite (detect_try_delivers _ _ _ _ Hov Hd).
Qed.

(** ** The override handler *)

Lemma add_override_frame data st :
  lru (snd (add_override data st)) = lru st /\
  requests_sent (snd (add_override data st)) = requests_sent st.
Proof.
  unfold add_override.
  destruct (data_get data "texture_id") as [texture_id|]; [|done].
  destruct (data_get data "color") as [color|]; [|done].
  destruct (negb (truthy texture_id) || negb (truthy color)); [done|].
  destruct (len color) as [n|]; [|done].
  destruct (negb (n =? 3)%nat); [done|].
  by destruct (hashable texture_id).
Qed.

Lemma add_override_stores data st texture_id key a b c :
  data_get data "texture_id" = Some texture_id ->
  truthy texture_id = true -> hashable texture_id = Some key ->
  data_get data "color" = Some (JArr [a; b; c]) ->
  add_override data st =
    (OverrideAdded (size (<[key := JArr [a; b; c]]> (SHIRT_OVERRIDES st))),
     set_overrides (<[key := JArr [a; b; c]]> (SHIRT_OVERRIDES st)) st).
Proof.
  intros Hid Ht Hk Hcol. unfold add_override. rewrite Hid, Hcol, Ht, Hk. reflexivity.
Qed.

Lemma truthy_nonempty_string id : id <> ""%string -> truthy (JStr id) = true.
Proof. intros Hne. simpl. by destruct (String.eqb_spec id "" ). Qed.

(** ** Requests and the memo table *)

(** An entry of the memo table never changes its value: it can only be
    dropped. *)
Lemma step_keeps_value id v v' st o :
  cache_get id (lru st) = Some v ->
  cache_get id (lru (step st o)) = Some v' -> v' = v.
Proof.
  intros Hv. destruct o as [w id' | data]; simpl.
  - destruct (String.eqb_spec id id') as [<- | Hne].
    + rewrite detect_memoises, (detect_hit _ _ _ _ Hv). simpl. congruence.
    + destruct (cache_get id' (lru st)) as [x|] eqn:Hc.
      * rewrite (detect_hit _ _ _ _ Hc); simpl.
        destruct (String.eqb_spec id' id) as [-> | _]; [done|].
        rewrite cache_get_remove_ne by done. congruence.
      * rewrite (detect_miss _ _ _ Hc); simpl. unfold store.
        destruct (maxsize <=? _)%nat; simpl;
          destruct (String.eqb_spec id' id) as [-> | _]; try done.
        -- intros H. apply cache_get_removelast in H. congruence.
        -- congruence.
  - destruct (add_override_frame data st) as [-> _]. congruence.
Qed.

Lemma run_keeps_entry id v ops st :
  cache_get id (lru st) = Some v -> stays_cached id ops st ->
  cache_get id (lru (run ops st)) = Some v.
Proof.
  revert st. induction ops as [|o rest IH]; intros st Hv Hs; simpl in *; [exact Hv|].
  destruct Hs as [[v' Hv'] Hs].
  apply IH; [|exact Hs].
  by rewrite Hv', (step_keeps_value _ _ _ _ _ Hv Hv').
Qed.

(** ** Colours in range *)

Lemma wrapped_triple w id st :
  world_ok w ->
  (forall c, SHIRT_OVERRIDES st !! KStr id = Some c -> is_color_triple c) ->
  is_color_triple (fst (detect_sleeve_color_wrapped w id st)).
Proof.
  intros Hw Hov.
  destruct (wrapped_result w id st) as [H | [-> | (content & img & Himg & ->)]].
  - by apply Hov.
  - apply white_triple.
  - apply analyse_with_triple. by apply (Hw content).
Qed.

Lemma detect_state_ok w id st :
  world_ok w -> state_ok st ->
  is_color_triple (fst (detect_sleeve_color w id st)) /\
  state_ok (snd (detect_sleeve_color w id st)).
Proof.
  intros Hw [Hov Hc]. unfold state_ok, overrides_ok, cache_ok in *.
  rewrite detect_overrides.
  destruct (cache_get id (lru st)) as [v|] eqn:Hget.
  - rewrite (detect_hit _ _ _ _ Hget); simpl.
    assert (Hv : is_color_triple v).
    { apply cache_get_In in Hget. rewrite Forall_forall in Hc. exact (Hc _ Hget). }
    repeat split; try done.
    apply Forall_forall. intros e He.
    apply In_touch in He as [-> | He]; [done|].
    rewrite Forall_forall in Hc. by apply Hc.
  - rewrite (detect_miss _ _ _ Hget); simpl.
    assert (Hv : is_color_triple (fst (detect_sleeve_color_wrapped w id st))).
    { apply wrapped_triple; [done|]. intros c Hcol. exact (Hov _ _ Hcol). }
    repeat split; try done.
    apply Forall_forall. intros e He.
    apply In_store in He as [-> | He]; [done|].
    rewrite Forall_forall in Hc. by apply Hc.
Qed.

Lemma add_override_state_ok data st :
  (forall color, data_get data "color" = Some color -> is_color_triple color) ->
  state_ok st -> state_ok (snd (add_override data st)).
Proof.
  intros Hcol [Hov Hc]. unfold state_ok, overrides_ok, cache_ok in *.
  destruct (add_override_frame data st) as [-> _]. split; [|done].
  unfold add_override.
  destruct (data_get data "texture_id") as [texture_id|]; [|done].
  destruct (data_get data "color") as [color|]; [|done].
  destruct (negb (truthy texture_id) || negb (truthy color)); [done|].
  destruct (len color) as [n|]; [|done].
  destruct (negb (n =? 3)%nat); [done|].
  destruct (hashable texture_id) as [key|]; [|done].
  simpl. apply map_Forall_insert_2; [by apply Hcol | done].
Qed.

End ServerFacts.

(* ===================================================================== *)
(** * The specification, statement by statement *)
(* ===================================================================== *)

Import Json Imaging Server LruCache.
Import ImagingFacts LruFacts ServerFacts.

(** ** Overrides and the memo table *)

(** With no memo entry for [id], the override is what a call returns. *)
Lemma override_wins_on_miss w id st color :
  SHIRT_OVERRIDES st !! KStr id = Some color -> cache_get id (lru st) = None ->
  fst (detect_sleeve_color w id st) = color.
Proof.
  intros Hov Hc. rewrite (detect_miss _ _ _ Hc); simpl.
  unfold detect_sleeve_color_wrapped. by rewrite (detect_try_override _ _ _ _ Hov).
Qed.

(** With a memo entry for [id], no later override changes what a call
    returns. *)
Lemma memo_entry_shadows_override w id st v data :
  cache_get id (lru st) = Some v ->
  fst (detect_sleeve_color w id (snd (add_override data st))) = v.
Proof.
  intros Hc. destruct (add_override_frame data st) as [Hl _].
  rewrite (detect_hit w id _ v); [reflexivity | by rewrite Hl].
Qed.

(** C1, evaluated on the code.  Texture "1" is detected as (10,20,30) and
    memoised; the override (1,2,3) is then added and accepted; the next
    detection still returns (10,20,30), not the override. *)
Theorem override_ignored_once_cached :
  let w := fixed_world 200 (Some navy) in
  let r1 := detect_sleeve_color w "1" initial in
  let r2 := add_override (override_body "1" (rgb 1 2 3)) (snd r1) in
  let r3 := detect_sleeve_color w "1" (snd r2) in
  fst r1 = rgb 10 20 30 /\
  fst r2 = OverrideAdded 1 /\
  SHIRT_OVERRIDES (snd r2) !! KStr "1" = Some (rgb 1 2 3) /\
  fst r3 = rgb 10 20 30.
Proof. vm_compute. repeat split; reflexivity. Qed.

(** C2, evaluated on the code.  A detection answered from the override
    (1,2,3) writes it into the memo table, which was empty before; after the
    override is replaced by (4,5,6) the next detection still returns (1,2,3):
    the override table was not consulted again. *)
Theorem override_answer_is_memoised :
  let r1 := add_override (override_body "1" (rgb 1 2 3)) initial in
  let r2 := detect_sleeve_color offline "1" (snd r1) in
  let r3 := add_override (override_body "1" (rgb 4 5 6)) (snd r2) in
  let r4 := detect_sleeve_color offline "1" (snd r3) in
  lru (snd r1) = [] /\
  fst r2 = rgb 1 2 3 /\
  lru (snd r2) = [("1"%string, rgb 1 2 3)] /\
  SHIRT_OVERRIDES (snd r3) !! KStr "1" = Some (rgb 4 5 6) /\
  fst r4 = rgb 1 2 3.
Proof. vm_compute. repeat split; reflexivity. Qed.

(** ** Colours stay in range *)

Lemma not_triple_300 : ~ is_color_triple (rgb 300 (-5) 1000).
Proof. intros (r & g & b & Heq & Hr & _). injection Heq as <- <- <-. lia. Qed.

(** C3 fails as stated: [/add_override] accepts the colour (300,-5,1000)
    with status 200, stores it unchanged, and detection returns it. *)
Lemma out_of_range_override_accepted :
  let r1 := add_override (override_body "1" (rgb 300 (-5) 1000)) initial in
  let r2 := detect_sleeve_color offline "1" (snd r1) in
  state_ok initial /\
  status_code_of (fst r1) = 200 /\
  SHIRT_OVERRIDES (snd r1) !! KStr "1" = Some (rgb 300 (-5) 1000) /\
  ~ overrides_ok (snd r1) /\
  fst r2 = rgb 300 (-5) 1000 /\
  ~ is_color_triple (fst r2).
Proof.
  assert (Hst : SHIRT_OVERRIDES (snd (add_override (override_body "1" (rgb 300 (-5) 1000)) initial))
                !! KStr "1" = Some (rgb 300 (-5) 1000)) by (vm_compute; reflexivity).
  cbv zeta.
  split; [split; [apply map_Forall_empty | apply Forall_nil]|].
  split; [reflexivity|].
  split; [exact Hst|].
  split; [intros Hok; exact (not_triple_300 (Hok _ _ Hst))|].
  assert (Hret : fst (detect_sleeve_color offline "1"
                        (snd (add_override (override_body "1" (rgb 300 (-5) 1000)) initial)))
                 = rgb 300 (-5) 1000) by (vm_compute; reflexivity).
  split; [exact Hret|].
  rewrite Hret. exact not_triple_300.
Qed.

(** C3, amended.  Starting from a state whose stored colours are all
    triples of integers in [0,255], any sequence of detections (over
    well-formed decoded images) and of override submissions whose colour is
    such a triple leaves every stored colour such a triple, and every
    detection then returns such a triple. *)
Theorem color_range_preserved (ops : list op) (st : state) :
  state_ok st -> Forall op_ok ops ->
  state_ok (run ops st) /\
  forall w id, world_ok w -> is_color_triple (fst (detect_sleeve_color w id (run ops st))).
Proof.
  intros Hst Hops.
  assert (Hrun : state_ok (run ops st)).
  { revert st Hst. induction Hops as [|o rest Ho _ IH]; intros st Hst; simpl; [exact Hst|].
    apply IH. destruct o as [w id | data]; simpl in *.
    - by apply detect_state_ok.
    - by apply add_override_state_ok. }
  split; [exact Hrun|].
  intros w id Hw. by apply detect_state_ok.
Qed.

Lemma navy_ok : image_ok navy.
Proof. repeat split; simpl; lia. Qed.

Lemma fixed_world_ok status_code img : image_ok img -> world_ok (fixed_world status_code (Some img)).
Proof. intros Hok content img' [= <-]. exact Hok. Qed.

Lemma color_range_preserved_witness :
  let ops := [AddOverride (override_body "2" (rgb 1 2 3));
              Detect (fixed_world 200 (Some navy)) "1";
              Detect (fixed_world 404 None) "2"] in
  state_ok initial /\ Forall op_ok ops /\
  state_ok (run ops initial) /\
  forall w id, world_ok w -> is_color_triple (fst (detect_sleeve_color w id (run ops initial))).
Proof.
  cbv zeta.
  assert (H0 : state_ok initial) by (split; [apply map_Forall_empty | apply Forall_nil]).
  assert (Hops : Forall op_ok [AddOverride (override_body "2" (rgb 1 2 3));
                               Detect (fixed_world 200 (Some navy)) "1";
                               Detect (fixed_world 404 None) "2"]).
  { apply Forall_cons; [|apply Forall_cons; [|apply Forall_cons; [|apply Forall_nil]]].
    - intros color [= <-]. exists 1, 2, 3. split; [reflexivity | lia].
    - apply fixed_world_ok, navy_ok.
    - intros content img [=]. }
  split; [exact H0|]. split; [exact Hops|].
  exact (color_range_preserved _ _ H0 Hops).
Defined.

(** ** Failures *)

Lemma not_triple_abc : ~ is_color_triple (JStr "abc").
Proof. intros (r & g & b & Heq & _). discriminate Heq. Qed.

(** C4 fails as stated, in two ways.  The string ["abc"] is accepted as an
    override colour (it is non-empty and has length 3) and detection
    returns it, which is no colour triple.  And a response whose status is
    304, not a success status, but whose body decodes to an image is
    analysed like any other: detection returns (10,20,30), not white. *)
Lemma detection_not_always_triple_or_white :
  (let r1 := add_override (override_body "1" (JStr "abc")) initial in
   status_code_of (fst r1) = 200 /\
   fst (detect_sleeve_color offline "1" (snd r1)) = JStr "abc" /\
   ~ is_color_triple (fst (detect_sleeve_color offline "1" (snd r1)))) /\
  (let w := fixed_world 304 (Some navy) in
   http_get w (asset_url "2") = Response 304 [] /\
   ~ (200 <= 304 < 300) /\
   fst (detect_sleeve_color w "2" initial) = rgb 10 20 30 /\
   fst (detect_sleeve_color w "2" initial) <> white).
Proof.
  cbv zeta.
  assert (Habc : fst (detect_sleeve_color offline "1"
                        (snd (add_override (override_body "1" (JStr "abc")) initial)))
                 = JStr "abc") by (vm_compute; reflexivity).
  assert (Hnavy : fst (detect_sleeve_color (fixed_world 304 (Some navy)) "2" initial)
                  = rgb 10 20 30) by (vm_compute; reflexivity).
  split.
  - split; [reflexivity|]. split; [exact Habc|]. rewrite Habc. exact not_triple_abc.
  - split; [reflexivity|]. split; [lia|]. split; [exact Hnavy|].
    rewrite Hnavy. discriminate.
Qed.

(** C4, amended.  [detect_sleeve_color] always returns a value, never an
    exception, and the value is determined case by case.  A memoised
    identifier gets the memoised value and an overridden one the stored
    override, whatever these are.  Otherwise the detection runs and returns
    a colour triple: white when the request fails (connection error or
    timeout), when the status lies in 400..599, or when the body cannot be
    decoded; with any other status, the analysis of the decoded image. *)
Theorem detection_recovers_failures w id st :
  world_ok w ->
  let v := fst (detect_sleeve_color w id st) in
  match cache_get id (lru st), SHIRT_OVERRIDES st !! KStr id with
  | Some m, _ => v = m
  | None, Some c => v = c
  | None, None =>
      is_color_triple v /\
      match http_get w (asset_url id) with
      | RequestFailed _ => v = white
      | Response status_code content =>
          (400 <= status_code < 600 -> v = white) /\
          (image_open w content = None -> v = white) /\
          (forall img, ~ (400 <= status_code < 600) ->
                       image_open w content = Some img -> v = analyse img)
      end
  end.
Proof.
  intros Hw. cbv zeta.
  destruct (cache_get id (lru st)) as [m|] eqn:Hc.
  { by rewrite (detect_hit _ _ _ _ Hc). }
  rewrite (detect_miss _ _ _ Hc). cbn [fst].
  unfold detect_sleeve_color_wrapped, detect_try.
  destruct (SHIRT_OVERRIDES st !! KStr id) as [c|]; [reflexivity|].
  destruct (http_get w (asset_url id)) as [f | status_code content]; cbn [fst].
  { split; [apply white_triple | reflexivity]. }
  unfold raise_for_status.
  destruct ((400 <=? status_code) && (status_code <? 600)) eqn:Hs.
  - rewrite andb_true_iff, Z.leb_le, Z.ltb_lt in Hs. cbn [fst].
    split; [apply white_triple|]. split; [reflexivity|]. split; [reflexivity|].
    intros img Hn. destruct (Hn Hs).
  - assert (Hn : ~ (400 <= status_code < 600)).
    { intros [H1 H2]. apply Z.leb_le in H1. apply Z.ltb_lt in H2.
      rewrite H1, H2 in Hs. discriminate Hs. }
    destruct (image_open w content) as [img|] eqn:Himg; cbn [fst].
    + split; [apply analyse_with_triple; by apply (Hw content)|].
      split; [intros H; destruct (Hn H)|]. split; [discriminate|].
      by intros img' _ [= <-].
    + split; [apply white_triple|]. split; [reflexivity|]. split; [reflexivity|].
      by intros img _ [=].
Qed.

Lemma detection_recovers_failures_witness :
  world_ok (fixed_world 404 (Some navy)) /\
  world_ok offline /\
  fst (detect_sleeve_color (fixed_world 404 (Some navy)) "1" initial) = white /\
  fst (detect_sleeve_color offline "1" initial) = white /\
  is_color_triple (fst (detect_sleeve_color (fixed_world 404 (Some navy)) "1" initial)).
Proof.
  assert (Hw : world_ok (fixed_world 404 (Some navy))) by (apply fixed_world_ok, navy_ok).
  assert (Ho : world_ok offline) by (intros content img [=]).
  pose proof (detection_recovers_failures (fixed_world 404 (Some navy)) "1" initial Hw) as H1.
  pose proof (detection_recovers_failures offline "1" initial Ho) as H2.
  cbv zeta in H1, H2.
  change (cache_get "1" (lru initial)) with (@None value) in H1, H2.
  change (SHIRT_OVERRIDES initial !! KStr "1") with (@None value) in H1, H2.
  change (http_get (fixed_world 404 (Some navy)) (asset_url "1")) with (Response 404 []) in H1.
  change (http_get offline (asset_url "1")) with (RequestFailed ConnectionError) in H2.
  cbv beta iota in H1, H2.
  destruct H1 as (Ht & Hstatus & _). destruct H2 as (_ & Hoff).
  split; [exact Hw|]. split; [exact Ho|].
  split; [apply Hstatus; lia|]. split; [exact Hoff | exact Ht].
Defined.

(** ** What the analysis returns *)

(** C5.  If no pixel of the decoded image has alpha above 128, the analysis
    returns white, and so does a detection that fetches that image. *)
Theorem transparent_image_gives_white img :
  (forall x y, 0 <= x < width img -> 0 <= y < height img -> alpha (getpixel img x y) <= 128) ->
  analyse img = white /\
  forall w id st,
    SHIRT_OVERRIDES st !! KStr id = None -> cache_get id (lru st) = None ->
    delivers w id img -> fst (detect_sleeve_color w id st) = white.
Proof.
  intros Ha.
  assert (Han : analyse img = white) by (by apply analyse_with_transparent).
  split; [exact Han|].
  intros w id st Hov Hc Hd. by rewrite (detect_fresh_delivers _ _ _ _ Hov Hc Hd).
Qed.

Lemma transparent_image_gives_white_witness :
  let img := solid 4 4 (mk_pixel 10 20 30 128) in
  (forall x y, 0 <= x < width img -> 0 <= y < height img -> alpha (getpixel img x y) <= 128) /\
  analyse img = white.
Proof.
  cbv zeta.
  assert (Ha : forall x y : Z,
             0 <= x < width (solid 4 4 (mk_pixel 10 20 30 128)) ->
             0 <= y < height (solid 4 4 (mk_pixel 10 20 30 128)) ->
             alpha (getpixel (solid 4 4 (mk_pixel 10 20 30 128)) x y) <= 128)
    by (intros; simpl; lia).
  split; [exact Ha|].
  exact (proj1 (transparent_image_gives_white _ Ha)).
Defined.

(** C6.  If every pixel of a decoded image has the colour [(r, g, b)] and
    alpha above 128, the analysis returns [(r, g, b)] for every list of
    regions (so both when the regions catch pixels and when the whole-image
    fallback does), and so does a detection that fetches that image. *)
Theorem solid_image_gives_its_color img r g b :
  image_ok img ->
  (forall x y, 0 <= x < width img -> 0 <= y < height img ->
     red (getpixel img x y) = r /\ green (getpixel img x y) = g /\
     blue (getpixel img x y) = b /\ 128 < alpha (getpixel img x y)) ->
  (forall areas, analyse_with areas img = rgb r g b) /\
  analyse img = rgb r g b /\
  forall w id st,
    SHIRT_OVERRIDES st !! KStr id = None -> cache_get id (lru st) = None ->
    delivers w id img -> fst (detect_sleeve_color w id st) = rgb r g b.
Proof.
  intros Hok Hsolid.
  assert (Hany : forall areas, analyse_with areas img = rgb r g b)
    by (intros areas; by apply analyse_with_solid).
  split; [exact Hany|]. split; [apply Hany|].
  intros w id st Hov Hc Hd.
  rewrite (detect_fresh_delivers _ _ _ _ Hov Hc Hd). apply Hany.
Qed.

Lemma solid_image_gives_its_color_witness :
  image_ok navy /\
  (forall x y, 0 <= x < width navy -> 0 <= y < height navy ->
     red (getpixel navy x y) = 10 /\ green (getpixel navy x y) = 20 /\
     blue (getpixel navy x y) = 30 /\ 128 < alpha (getpixel navy x y)) /\
  analyse navy = rgb 10 20 30 /\
  analyse (solid 1 1 (mk_pixel 10 20 30 255)) = rgb 10 20 30.
Proof.
  assert (Hs : forall w h x y, 0 <= x < w -> 0 <= y < h ->
             red (getpixel (solid w h (mk_pixel 10 20 30 255)) x y) = 10 /\
             green (getpixel (solid w h (mk_pixel 10 20 30 255)) x y) = 20 /\
             blue (getpixel (solid w h (mk_pixel 10 20 30 255)) x y) = 30 /\
             128 < alpha (getpixel (solid w h (mk_pixel 10 20 30 255)) x y))
    by (intros; simpl; lia).
  assert (H1 : image_ok (solid 1 1 (mk_pixel 10 20 30 255))) by (repeat split; simpl; lia).
  split; [exact navy_ok|]. split; [exact (Hs 10 10)|]. split.
  - exact (proj1 (proj2 (solid_image_gives_its_color navy 10 20 30 navy_ok (Hs 10 10)))).
  - exact (proj1 (proj2 (solid_image_gives_its_color _ 10 20 30 H1 (Hs 1 1)))).
Defined.

(** C9.  Processing the four regions in any other order gives the same
    colour. *)
Theorem region_order_irrelevant img areas :
  Permutation (detection_areas (width img) (height img)) areas ->
  analyse_with areas img = analyse img.
Proof. intros Hp. unfold analyse. symmetry. by apply analyse_with_perm. Qed.

Lemma region_order_irrelevant_witness :
  let img := gradient 20 20 in
  Permutation (detection_areas (width img) (height img))
              (rev (detection_areas (width img) (height img))) /\
  analyse_with (rev (detection_areas (width img) (height img))) img = analyse img.
Proof.
  cbv zeta.
  pose proof (Permutation_rev (detection_areas (width (gradient 20 20)) (height (gradient 20 20))))
    as Hp.
  split; [exact Hp|].
  exact (region_order_irrelevant _ _ Hp).
Defined.

(** ** Memoisation *)

(** C7.  A second call for the same identifier returns what the first
    returned and sends no request: it is answered from the memo table.
    (This holds whatever the remote source does in between, and with or
    without an override.) *)
Theorem second_call_answered_from_memo w w' id st :
  let r1 := detect_sleeve_color w id st in
  let r2 := detect_sleeve_color w' id (snd r1) in
  cache_get id (lru (snd r1)) = Some (fst r1) /\
  fst r2 = fst r1 /\
  requests_sent (snd r2) = requests_sent (snd r1).
Proof.
  cbv zeta. pose proof (detect_memoises w id st) as Hm.
  split; [exact Hm|].
  by rewrite (detect_hit w' id _ _ Hm).
Qed.

(** C10.  A detection that fails internally returns white and memoises it:
    as long as the entry stays in the memo table, every later detection of
    the same identifier returns white and sends no request, whatever the
    remote source would answer by then. *)
Theorem failure_is_memoised w id st :
  SHIRT_OVERRIDES st !! KStr id = None -> cache_get id (lru st) = None ->
  fetch_fails w id ->
  let r1 := detect_sleeve_color w id st in
  fst r1 = white /\
  cache_get id (lru (snd r1)) = Some white /\
  forall ops w',
    stays_cached id ops (snd r1) ->
    let r2 := detect_sleeve_color w' id (run ops (snd r1)) in
    fst r2 = white /\ requests_sent (snd r2) = requests_sent (run ops (snd r1)).
Proof.
  intros Hov Hc Hf. cbv zeta.
  assert (Hwhite : fst (detect_sleeve_color w id st) = white).
  { rewrite (detect_miss _ _ _ Hc); simpl.
    destruct (detect_try_fails w id st Hov Hf) as [e He].
    unfold detect_sleeve_color_wrapped. by rewrite He. }
  assert (Hm : cache_get id (lru (snd (detect_sleeve_color w id st))) = Some white)
    by (by rewrite detect_memoises, Hwhite).
  split; [exact Hwhite|]. split; [exact Hm|].
  intros ops w' Hs.
  pose proof (run_keeps_entry _ _ _ _ Hm Hs) as Hrun.
  by rewrite (detect_hit w' id _ _ Hrun).
Qed.

Lemma failure_is_memoised_witness :
  let w := fixed_world 404 None in
  let good := fixed_world 200 (Some navy) in
  let ops := [Detect good "2"; AddOverride (override_body "3" (rgb 1 2 3))] in
  let r1 := detect_sleeve_color w "1" initial in
  SHIRT_OVERRIDES initial !! KStr "1" = None /\
  cache_get "1" (lru initial) = None /\
  fetch_fails w "1" /\
  stays_cached "1" ops (snd r1) /\
  fst (detect_sleeve_color good "1" (run ops (snd r1))) = white.
Proof.
  cbv zeta.
  assert (Hov : SHIRT_OVERRIDES initial !! KStr "1" = None) by reflexivity.
  assert (Hc : cache_get "1" (lru initial) = @None value) by reflexivity.
  assert (Hf : fetch_fails (fixed_world 404 None) "1") by (simpl; by left).
  assert (Hs : stays_cached "1"
                 [Detect (fixed_world 200 (Some navy)) "2";
                  AddOverride (override_body "3" (rgb 1 2 3))]
                 (snd (detect_sleeve_color (fixed_world 404 None) "1" initial))).
  { repeat split; vm_compute; eauto. }
  split; [exact Hov|]. split; [exact Hc|]. split; [exact Hf|]. split; [exact Hs|].
  destruct (failure_is_memoised _ _ _ Hov Hc Hf) as (_ & _ & Hlater).
  exact (proj1 (Hlater _ (fixed_world 200 (Some navy)) Hs)).
Defined.

(** ** The override handler *)

(** C8.  A body whose [texture_id] is non-empty (truthy and usable as a
    dictionary key: a non-empty string in particular) and whose [color] has
    3 elements is answered 200 with [success: true]; the colour is stored
    under the identifier, replacing any earlier one; the reported total is
    the previous table size plus one for a new identifier and the previous
    size for one already present, so submitting the same identifier again
    reports the same total. *)
Theorem add_override_total data texture_id key a b c st :
  data_get data "texture_id" = Some texture_id ->
  truthy texture_id = true -> hashable texture_id = Some key ->
  data_get data "color" = Some (JArr [a; b; c]) ->
  let r := add_override data st in
  status_code_of (fst r) = 200 /\ success_of (fst r) = true /\
  SHIRT_OVERRIDES (snd r) = <[key := JArr [a; b; c]]> (SHIRT_OVERRIDES st) /\
  (SHIRT_OVERRIDES st !! key = None ->
   fst r = OverrideAdded (S (size (SHIRT_OVERRIDES st)))) /\
  (is_Some (SHIRT_OVERRIDES st !! key) ->
   fst r = OverrideAdded (size (SHIRT_OVERRIDES st))) /\
  (forall data' a' b' c',
     data_get data' "texture_id" = Some texture_id ->
     data_get data' "color" = Some (JArr [a'; b'; c']) ->
     fst (add_override data' (snd r)) = fst r /\
     SHIRT_OVERRIDES (snd (add_override data' (snd r))) !! key = Some (JArr [a'; b'; c'])).
Proof.
  intros Hid Ht Hk Hcol. cbv zeta.
  rewrite (add_override_stores _ _ _ _ _ _ _ Hid Ht Hk Hcol). simpl.
  split; [reflexivity|]. split; [reflexivity|]. split; [reflexivity|].
  split; [|split].
  - intros Hnone. by rewrite map_size_insert_None.
  - intros Hsome. by rewrite map_size_insert_Some.
  - intros data' a' b' c' Hid' Hcol'.
    rewrite (add_override_stores _ _ _ _ _ _ _ Hid' Ht Hk Hcol'). simpl. split.
    + rewrite map_size_insert_Some; [reflexivity|].
      rewrite lookup_insert_eq. eauto.
    + apply lookup_insert_eq.
Qed.

Lemma add_override_total_witness :
  let data := override_body "1" (rgb 10 20 30) in
  data_get data "texture_id" = Some (JStr "1") /\
  truthy (JStr "1") = true /\
  hashable (JStr "1") = Some (KStr "1") /\
  data_get data "color" = Some (rgb 10 20 30) /\
  fst (add_override data initial) = OverrideAdded 1 /\
  fst (add_override data (snd (add_override data initial))) = OverrideAdded 1.
Proof.
  cbv zeta.
  assert (Hid : data_get (override_body "1" (rgb 10 20 30)) "texture_id" = Some (JStr "1"))
    by reflexivity.
  assert (Ht : truthy (JStr "1") = true) by reflexivity.
  assert (Hk : hashable (JStr "1") = Some (KStr "1")) by reflexivity.
  assert (Hcol : data_get (override_body "1" (rgb 10 20 30)) "color" = Some (rgb 10 20 30))
    by reflexivity.
  destruct (add_override_total _ _ _ _ _ _ initial Hid Ht Hk Hcol)
    as (_ & _ & _ & Hnew & _ & Hagain).
  split; [exact Hid|]. split; [exact Ht|]. split; [exact Hk|]. split; [exact Hcol|].
  assert (H1 : fst (add_override (override_body "1" (rgb 10 20 30)) initial) = OverrideAdded 1)
    by (apply Hnew; reflexivity).
  split; [exact H1|].
  rewrite <- H1. exact (proj1 (Hagain _ (JInt 10) (JInt 20) (JInt 30) Hid Hcol)).
Defined.

(* ===================================================================== *)
(** * Further lemmas *)
(* ===================================================================== *)

Module MemoFacts.

Local Set Warnings "-clear-no-such-hyp".

(** ** Keys of the memo table *)


Lemma keys_remove {V} k (c : list (string * V)) :
  map fst (remove k c) = List.filter (fun x => negb (String.eqb x k)) (map fst c).
Proof.
  unfold remove. induction c as [|[k' v] c IH]; simpl; [reflexivity|].
  destruct (String.eqb k' k); simpl; by rewrite IH.
Qed.

Lemma keys_removelast {V} (c : list (string * V)) :
  map fst (removelast c) = removelast (map fst c).
Proof.
  induction c as [|e c IH]; [reflexivity|].
  destruct c as [|e' c']; [reflexivity|].
  change (removelast (e :: e' :: c')) with (e :: removelast (e' :: c')).
  change (map fst (e :: e' :: c')) with (fst e :: fst e' :: map fst c').
  change (removelast (fst e :: fst e' :: map fst c'))
    with (fst e :: removelast (fst e' :: map fst c')).
  simpl map at 1. f_equal. exact IH.
Qed.

Lemma cache_get_None {V} k (c : list (string * V)) :
  cache_get k c = None <-> k ∉ map fst c.
Proof.
  induction c as [|[k' v] c IH]; simpl.
  - split; [intros _; apply not_elem_of_nil | done].
  - rewrite not_elem_of_cons. destruct (String.eqb_spec k' k) as [-> | Hne].
    + split; [done | intros [? _]; done].
    + rewrite IH. split; [intros ?; split; [congruence | done] | by intros [_ ?]].
Qed.

Lemma cache_get_is_Some {V} k (c : list (string * V)) :
  is_Some (cache_get k c) <-> k ∈ map fst c.
Proof.
  destruct (cache_get k c) eqn:H.
  - split; [intros _ | eauto].
    destruct (decide (k ∈ map fst c)) as [|Hn]; [done|].
    apply cache_get_None in Hn. congruence.
  - apply cache_get_None in H. split; [intros [? [=]] | done].
Qed.

Local Abbreviation rm k := (List.filter (fun x => negb (String.eqb x k))).

Lemma elem_of_rm k x (l : list string) : x ∈ rm k l <-> x ∈ l /\ x <> k.
Proof.
  rewrite !list_elem_of_In, filter_In, negb_true_iff.
  destruct (String.eqb_spec x k); split; intros [? ?]; split; congruence.
Qed.

Lemma rm_app k (l1 l2 : list string) : rm k (l1 ++ l2) = rm k l1 ++ rm k l2.
Proof. apply List.filter_app. Qed.

Lemma rm_not_in k (l : list string) : k ∉ l -> rm k l = l.
Proof.
  induction l as [|x l IH]; [done|]. rewrite not_elem_of_cons. intros [Hne Hl]. simpl.
  destruct (String.eqb_spec x k) as [-> | _]; [done|]. simpl. by rewrite IH.
Qed.

Lemma NoDup_rm k (l : list string) : NoDup l -> NoDup (rm k l).
Proof.
  induction 1 as [|x l Hx Hl IH]; simpl; [constructor|].
  destruct (String.eqb x k); simpl; [exact IH|].
  constructor; [|exact IH]. rewrite elem_of_rm. tauto.
Qed.

Lemma length_rm_in k (l : list string) :
  k ∈ l -> (List.length (rm k l) < List.length l)%nat.
Proof.
  induction l as [|x l IH]; [by intros ?%elem_of_nil|]. simpl.
  destruct (String.eqb_spec x k) as [-> | Hne]; simpl.
  - intros _. pose proof (List.filter_length_le (fun x => negb (String.eqb x k)) l). lia.
  - intros [?|Hin]%elem_of_cons; [congruence|]. specialize (IH Hin). lia.
Qed.

Lemma elem_of_removelast x (l : list string) : x ∈ removelast l -> x ∈ l.
Proof.
  induction l as [|a l IH]; [done|].
  destruct l as [|b l']; [simpl; by intros ?%elem_of_nil|].
  change (removelast (a :: b :: l')) with (a :: removelast (b :: l')).
  rewrite !(elem_of_cons _ x a). intros [-> | H]; [by left | right; by apply IH].
Qed.

Lemma NoDup_removelast (l : list string) : NoDup l -> NoDup (removelast l).
Proof.
  induction l as [|a l IH]; [done|].
  destruct l as [|b l']; [intros _; constructor|].
  change (removelast (a :: b :: l')) with (a :: removelast (b :: l')).
  intros [Ha Hl]%list.NoDup_cons. apply list.NoDup_cons. split; [|by apply IH].
  intros H. apply Ha. by apply elem_of_removelast.
Qed.

Lemma length_removelast (l : list string) :
  l <> [] -> List.length (removelast l) = pred (List.length l).
Proof.
  intros Hne. destruct (exists_last Hne) as (l' & a & ->).
  rewrite removelast_last, length_app. simpl. lia.
Qed.

Lemma removelast_middle (l1 l2 : list string) x y :
  removelast (l1 ++ x :: l2 ++ [y]) = l1 ++ x :: l2.
Proof.
  replace (l1 ++ x :: l2 ++ [y]) with ((l1 ++ x :: l2) ++ [y]) by (by rewrite <- app_assoc).
  apply removelast_last.
Qed.

(** The keys after one request: an identifier that is present moves to
    the front; one that is absent is put in front, and a full table drops
    its last key to make room. *)
Lemma step_keys st o :
  match o with
  | AddOverride _ => map fst (lru (step st o)) = map fst (lru st)
  | Detect w k =>
      ((k ∈ map fst (lru st)) /\ map fst (lru (step st o)) = k :: rm k (map fst (lru st))) \/
      ((k ∉ map fst (lru st)) /\
       map fst (lru (step st o)) =
         k :: (if (maxsize <=? List.length (map fst (lru st)))%nat
               then removelast (map fst (lru st)) else map fst (lru st)))
  end.
Proof.
  destruct o as [w k | data]; cbn [step].
  - destruct (cache_get k (lru st)) as [v|] eqn:Hc.
    + left. split; [apply (proj1 (cache_get_is_Some k (lru st))); by exists v|].
      rewrite (detect_hit _ _ _ _ Hc). cbn [snd lru set_lru]. unfold touch. cbn [map fst].
      by rewrite keys_remove.
    + right. split; [by apply (proj1 (cache_get_None k (lru st)))|].
      rewrite (detect_miss _ _ _ Hc). cbn [snd lru set_lru]. unfold store. rewrite length_map.
      destruct (maxsize <=? _)%nat; cbn [map fst]; [by rewrite keys_removelast | reflexivity].
  - by destruct (add_override_frame data st) as [-> _].
Qed.

Lemma step_memo_ok st o : memo_ok st -> memo_ok (step st o).
Proof.
  unfold memo_ok. intros [Hnd Hlen].
  rewrite <- (length_map fst) in Hlen |- *.
  pose proof (step_keys st o) as Hk. destruct o as [w k | data].
  - destruct Hk as [[Hin ->] | [Hout ->]].
    + split.
      * apply list.NoDup_cons. split; [rewrite elem_of_rm; tauto | by apply NoDup_rm].
      * pose proof (length_rm_in k _ Hin). cbn [List.length]. lia.
    + destruct (Nat.leb_spec maxsize (List.length (map fst (lru st)))) as [Hfull | Hroom].
      * split.
        -- apply list.NoDup_cons. split; [|by apply NoDup_removelast].
           intros H. apply Hout. by apply elem_of_removelast.
        -- cbn [List.length]. rewrite length_removelast.
           ++ unfold maxsize in *. lia.
           ++ intros Hnil. rewrite Hnil in Hfull. unfold maxsize in Hfull.
              cbn [List.length] in Hfull. lia.
      * split; [by apply list.NoDup_cons | cbn [List.length]; lia].
  - by rewrite Hk.
Qed.

Lemma run_memo_ok ops st : memo_ok st -> memo_ok (run ops st).
Proof.
  revert st. induction ops as [|o rest IH]; intros st H; simpl; [exact H|].
  by apply IH, step_memo_ok.
Qed.

(** ** How long an entry stays *)

Lemma others_detected_cons id o rest :
  others_detected id (o :: rest) =
    match o with
    | Detect _ k => if String.eqb k id then ∅ else {[ k ]}
    | AddOverride _ => ∅
    end ∪ others_detected id rest.
Proof.
  unfold others_detected, detected. cbn [flat_map].
  destruct o as [w k | data]; cbn [app].
  - cbn [List.filter]. destruct (String.eqb k id); cbn [negb list_to_set].
    + by rewrite (left_id_L ∅ (∪)).
    + reflexivity.
  - by rewrite (left_id_L ∅ (∪)).
Qed.

Lemma detected_cons o rest :
  detected (o :: rest) =
    match o with Detect _ k => [k] | AddOverride _ => [] end ++ detected rest.
Proof. reflexivity. Qed.

(** [ahead id K S]: [id] is among the keys [K], and every key in front of
    it belongs to [S]. *)
Local Abbreviation ahead id K S :=
  (exists l1 l2 : list string, K = l1 ++ id :: l2 /\ forall x, x ∈ l1 -> x ∈ S).

Lemma survive_step id st o (S : gset string) :
  memo_ok st ->
  ahead id (map fst (lru st)) S ->
  (size (S ∪ others_detected id [o]) < 100)%nat ->
  ahead id (map fst (lru (step st o))) (S ∪ others_detected id [o]).
Proof.
  intros [Hnd Hlen] (l1 & l2 & HK & Hl1) Hsize.
  rewrite others_detected_cons in *.
  replace (others_detected id []) with (∅ : gset string) in * by reflexivity.
  pose proof (step_keys st o) as Hk. destruct o as [w k | data].
  2:{ rewrite Hk, HK. exists l1, l2. split; [reflexivity|]. set_solver. }
  rewrite HK in Hnd.
  assert (Hid1 : id ∉ l1).
  { apply list.NoDup_app in Hnd as (_ & Hd & _). intros Hin. apply (Hd _ Hin). by left. }
  assert (Hid2 : id ∉ l2).
  { apply list.NoDup_app in Hnd as (_ & _ & Hd). by apply list.NoDup_cons in Hd as [? _]. }
  destruct (String.eqb_spec k id) as [-> | Hne].
  - (* the identifier itself: it moves to the front *)
    destruct Hk as [[_ ->] | [Hout _]].
    + exists [], (rm id (map fst (lru st))). split; [reflexivity|]. by intros x ?%elem_of_nil.
    + exfalso. apply Hout. rewrite HK. set_solver.
  - destruct Hk as [[Hin ->] | [Hout ->]].
    + (* another identifier that is present: it moves in front *)
      exists (k :: rm k l1), (rm k l2). split.
      * rewrite HK, rm_app. cbn [List.filter].
        destruct (String.eqb_spec id k) as [-> | _]; [done|]. reflexivity.
      * intros x [-> | Hx]%elem_of_cons; [set_solver|].
        apply elem_of_rm in Hx as [Hx _]. specialize (Hl1 x Hx). set_solver.
    + destruct (Nat.leb_spec maxsize (List.length (map fst (lru st)))) as [Hfull | Hroom].
      * (* a new identifier, table full: the last key goes *)
        destruct (decide (l2 = [])) as [-> | Hl2].
        -- exfalso. rewrite HK in Hfull, Hout. rewrite length_app in Hfull.
           cbn [List.length] in Hfull. unfold maxsize in Hfull.
           assert (Hnd' : NoDup (k :: l1)).
           { apply list.NoDup_cons. split; [set_solver|].
             by apply list.NoDup_app in Hnd as (? & _ & _). }
           assert (Hsub : list_to_set (k :: l1) ⊆ S ∪ ({[k]} ∪ ∅)) by set_solver.
           apply subseteq_size in Hsub.
           rewrite size_list_to_set in Hsub by exact Hnd'. cbn [List.length] in Hsub. lia.
        -- destruct (exists_last Hl2) as (l2' & y & ->).
           exists (k :: l1), l2'. split; [|set_solver].
           rewrite HK, removelast_middle. reflexivity.
      * exists (k :: l1), l2. split; [by rewrite HK | set_solver].
Qed.

Lemma survive_stays id ops : forall st (S : gset string),
  memo_ok st ->
  ahead id (map fst (lru st)) S ->
  (size (S ∪ others_detected id ops) < 100)%nat ->
  stays_cached id ops st.
Proof.
  induction ops as [|o rest IH]; intros st S Hok Hahead Hsize; [exact Logic.I|].
  assert (Hsub : S ∪ others_detected id [o] ⊆ S ∪ others_detected id (o :: rest)).
  { rewrite (others_detected_cons id o rest), (others_detected_cons id o []). set_solver. }
  assert (Hsize1 : (size (S ∪ others_detected id [o]) < 100)%nat).
  { apply subseteq_size in Hsub. lia. }
  pose proof (survive_step id st o S Hok Hahead Hsize1) as Hnext.
  split.
  - apply cache_get_is_Some. destruct Hnext as (l1 & l2 & -> & _). set_solver.
  - apply (IH _ (S ∪ others_detected id [o])); [by apply step_memo_ok | exact Hnext |].
    replace (S ∪ others_detected id [o] ∪ others_detected id rest)
      with (S ∪ others_detected id (o :: rest)); [exact Hsize|].
    rewrite (others_detected_cons id o rest), (others_detected_cons id o []).
    replace (others_detected id []) with (∅ : gset string) by reflexivity. set_solver.
Qed.

(** [behind id K S]: if [id] is among the keys [K], every element of [S]
    is in front of its first occurrence. *)
Local Abbreviation behind id K S :=
  ((id ∈ K) -> exists l1 l2 : list string,
       K = l1 ++ id :: l2 /\ (id ∉ l1) /\ forall x, x ∈ S -> x ∈ l1).

Lemma evict_step id st o (S : gset string) :
  id ∉ detected [o] ->
  behind id (map fst (lru st)) S ->
  behind id (map fst (lru (step st o))) (S ∪ list_to_set (detected [o])).
Proof.
  intros Hno Hbehind. pose proof (step_keys st o) as Hk. destruct o as [w k | data].
  2:{ rewrite Hk. intros Hin. destruct (Hbehind Hin) as (l1 & l2 & HK & Hid & HS).
      exists l1, l2. split; [exact HK|]. split; [exact Hid|]. set_solver. }
  assert (Hne : k <> id) by (intros ->; apply Hno; set_solver).
  change (detected [Detect w k]) with [k].
  destruct Hk as [[Hin ->] | [Hout ->]].
  - intros [?|Hid']%elem_of_cons; [congruence|].
    apply elem_of_rm in Hid' as [Hid' _].
    destruct (Hbehind Hid') as (l1 & l2 & HK & Hid & HS).
    exists (k :: rm k l1), (rm k l2). split; [|split].
    + rewrite HK, rm_app. cbn [List.filter].
      destruct (String.eqb_spec id k) as [-> | _]; [done|]. reflexivity.
    + rewrite not_elem_of_cons, elem_of_rm. split; [congruence | tauto].
    + intros x Hx. destruct (decide (x = k)) as [-> | Hxk]; [set_solver|].
      apply elem_of_cons. right. apply elem_of_rm. split; [|exact Hxk].
      apply HS. set_solver.
  - destruct (Nat.leb_spec maxsize (List.length (map fst (lru st)))) as [Hfull | Hroom].
    + intros [?|Hid']%elem_of_cons; [congruence|].
      pose proof (elem_of_removelast _ _ Hid') as Hin.
      destruct (Hbehind Hin) as (l1 & l2 & HK & Hid & HS).
      destruct (decide (l2 = [])) as [-> | Hl2].
      * exfalso. rewrite HK in Hid'. rewrite removelast_last in Hid'. done.
      * destruct (exists_last Hl2) as (l2' & y & ->).
        exists (k :: l1), l2'. split; [|split].
        -- rewrite HK, removelast_middle. reflexivity.
        -- rewrite not_elem_of_cons. split; [congruence | exact Hid].
        -- intros x Hx. destruct (decide (x = k)) as [-> | Hxk]; [set_solver|].
           apply elem_of_cons. right. apply HS. set_solver.
    + intros [?|Hin]%elem_of_cons; [congruence|].
      destruct (Hbehind Hin) as (l1 & l2 & HK & Hid & HS).
      exists (k :: l1), l2. split; [by rewrite HK|]. split.
      * rewrite not_elem_of_cons. split; [congruence | exact Hid].
      * intros x Hx. destruct (decide (x = k)) as [-> | Hxk]; [set_solver|].
        apply elem_of_cons. right. apply HS. set_solver.
Qed.

Lemma evict_run id ops : forall st (S : gset string),
  id ∉ detected ops ->
  behind id (map fst (lru st)) S ->
  behind id (map fst (lru (run ops st))) (S ∪ list_to_set (detected ops)).
Proof.
  induction ops as [|o rest IH]; intros st S Hno Hbehind.
  - cbn [run fold_left detected flat_map]. intros Hin.
    destruct (Hbehind Hin) as (l1 & l2 & HK & Hid & HS).
    exists l1, l2. split; [exact HK|]. split; [exact Hid|]. set_solver.
  - rewrite detected_cons in Hno.
    assert (Hno1 : id ∉ detected [o]).
    { rewrite (detected_cons o []). cbn [detected flat_map]. rewrite app_nil_r. set_solver. }
    assert (Hno2 : id ∉ detected rest) by set_solver.
    pose proof (evict_step id st o S Hno1 Hbehind) as Hnext.
    specialize (IH _ _ Hno2 Hnext).
    change (run (o :: rest) st) with (run rest (step st o)).
    intros Hin. destruct (IH Hin) as (l1 & l2 & HK & Hid & HS).
    exists l1, l2. split; [exact HK|]. split; [exact Hid|].
    intros x Hx. apply HS. rewrite detected_cons in Hx.
    rewrite (detected_cons o []). cbn [detected flat_map]. rewrite app_nil_r. set_solver.
Qed.

(** Right after a detection the identifier is the first key. *)
Lemma detect_puts_first w id st :
  exists rest, map fst (lru (snd (detect_sleeve_color w id st))) = id :: rest.
Proof.
  pose proof (step_keys st (Detect w id)) as [[_ H] | [_ H]]; cbn [step] in H; eauto.
Qed.

End MemoFacts.

Module RoundingFacts.
Import Binary64 Binary64Facts.

(** The rounded quotient of a ratio below [2^53], with its exponent. *)
Lemma round_ratio_shape n d :
  0 < n -> 0 < d -> n < 2 ^ 53 * d ->
  let e := floor_log2_ratio n d - 52 in
  e <= 0 /\
  exists q, round_ratio n d = mk_float q e /\
    (q = n * 2 ^ (- e) / d \/ (q = n * 2 ^ (- e) / d + 1 /\ 0 < (n * 2 ^ (- e)) mod d)).
Proof.
  intros Hn Hd Hlt e.
  pose proof (floor_log2_ratio_le n d Hn Hd Hlt) as He.
  assert (He0 : e <= 0) by (subst e; lia).
  split; [exact He0|].
  unfold round_ratio.
  destruct (Z.eqb_spec n 0) as [|_]; [lia|].
  fold e.
  rewrite (pow2_of_nonneg (- e)), (pow2_of_nonpos e) by lia.
  rewrite Z.mul_1_r.
  eexists. split; [reflexivity|].
  destruct ((d <? 2 * ((n * 2 ^ (- e)) mod d)) || _) eqn:Hup; [right | left; reflexivity].
  split; [reflexivity|].
  apply orb_true_iff in Hup as [Hup | Hup].
  - apply Z.ltb_lt in Hup.
    pose proof (Z.mod_pos_bound (n * 2 ^ (- e)) d Hd). lia.
  - apply andb_true_iff in Hup as [Hup _]. apply Z.eqb_eq in Hup. lia.
Qed.

Lemma floor_log2_ratio_lt n d m :
  0 < n -> 0 < d -> 0 <= m -> n < 2 ^ m * d -> floor_log2_ratio n d < m.
Proof.
  intros Hn Hd Hm Hlt.
  destruct (floor_log2_ratio_spec n d Hn Hd) as [Hge _].
  destruct (Z_lt_ge_dec (floor_log2_ratio n d) m) as [|Hf]; [assumption | exfalso].
  apply (ratio_ge_anti n d _ m) in Hge; [|lia|lia|lia].
  unfold ratio_ge in Hge.
  rewrite (pow2_of_nonneg m), (pow2_of_nonpos (- m)) in Hge by lia. lia.
Qed.

(** With fewer than [2^45] addends the rounded mean of 8-bit values,
    truncated, is the floor of the exact mean. *)
Lemma int_div_floor s n :
  0 <= s <= 255 * n -> 0 < n < 2 ^ 45 -> int_div s n = s / n.
Proof.
  intros Hs Hn. unfold int_div.
  destruct (Z.eq_dec s 0) as [-> | Hs0].
  { unfold round_ratio. rewrite Z.eqb_refl, trunc_zero. reflexivity. }
  assert (Hf : floor_log2_ratio s n < 8) by (apply floor_log2_ratio_lt; lia).
  destruct (round_ratio_shape s n ltac:(lia) ltac:(lia) ltac:(lia)) as (He & q & -> & Hq).
  set (e := floor_log2_ratio s n - 52) in *.
  rewrite trunc_scaled by exact He.
  assert (HP45 : 2 ^ 45 <= 2 ^ (- e)) by (apply Z.pow_le_mono_r; subst e; lia).
  set (P := 2 ^ (- e)) in *. clearbody P.
  pose proof (Z.div_mod s n ltac:(lia)) as Hdm.
  pose proof (Z.mod_pos_bound s n ltac:(lia)) as Ht.
  set (a := s / n) in *. set (t := s mod n) in *.
  assert (Ha : 0 <= a) by (subst a; apply Z.div_pos; lia).
  assert (HsP : s * P = n * (a * P) + t * P) by (rewrite Hdm; ring).
  assert (Hlow : a * P <= s * P / n).
  { apply Z.div_le_lower_bound; [lia|]. nia. }
  symmetry. apply Z.div_unique_pos with (r := q - a * P); [|lia].
  destruct Hq as [-> | [-> Hrem]].
  - split; [lia|].
    assert (s * P / n < (a + 1) * P); [|lia].
    apply Z.div_lt_upper_bound; [lia|]. nia.
  - split; [lia|].
    assert (Htpos : 0 < t).
    { destruct (Z.eq_dec t 0) as [Ht0 | ?]; [|lia].
      rewrite HsP, Ht0, Z.mul_0_l, Z.add_0_r, Z.mul_comm, Z.mod_mul in Hrem by lia. lia. }
    assert (s * P / n < (a + 1) * P - 1); [|lia].
    apply Z.div_lt_upper_bound; [lia|]. nia.
Qed.

(** A truncated rounded quotient stays below any integer bound of the
    exact quotient. *)
Lemma int_div_le n d m :
  0 <= n <= m * d -> 0 < d -> m < 2 ^ 53 -> int_div n d <= m.
Proof.
  intros Hn Hd Hm. unfold int_div.
  destruct (Z.eq_dec n 0) as [-> | Hn0].
  { unfold round_ratio. rewrite Z.eqb_refl, trunc_zero. nia. }
  assert (Hm0 : 0 < m) by nia.
  destruct (round_ratio_small n d) as (e & q & He & -> & Hq); [lia | lia | nia |].
  rewrite trunc_scaled by exact He.
  set (P := 2 ^ (- e)) in *.
  assert (HP : 0 < P) by (apply Z.pow_pos_nonneg; lia).
  clearbody P.
  assert (Hle : n * P <= m * P * d).
  { replace (m * P * d) with (m * d * P) by ring. apply Z.mul_le_mono_nonneg_r; lia. }
  assert (Hq' : q <= m * P).
  { destruct Hq as [-> | [-> Hpos]].
    - apply Z.div_le_upper_bound; lia.
    - assert (n * P / d < m * P); [|lia].
      apply Z.div_lt_upper_bound; [lia|].
      destruct (Z.eq_dec (n * P) (d * (m * P))) as [Heq | Hne]; [|lia].
      rewrite Heq, (Z.mul_comm d), Z.mod_mul in Hpos by lia. lia. }
  apply Z.div_le_upper_bound; lia.
Qed.

(** [float(dim)] is exact below [2^53]. *)
Lemma of_int_exact dim :
  0 <= dim < 2 ^ 53 ->
  significand (of_int dim) * pow2 (exponent (of_int dim))
  = dim * pow2 (- exponent (of_int dim)).
Proof.
  intros Hdim. unfold of_int.
  destruct (Z.eq_dec dim 0) as [-> | Hne]; [reflexivity|].
  destruct (round_ratio_small dim 1) as (e & q & He & -> & Hq); [lia | lia | lia |].
  cbn [significand exponent].
  rewrite (pow2_of_nonpos e), (pow2_of_nonneg (- e)) by lia.
  rewrite Z.div_1_r, Z.mod_1_r in Hq. lia.
Qed.

Lemma pow2_sum a b :
  pow2 (a + b) * (pow2 (- a) * pow2 (- b)) = pow2 a * pow2 b * pow2 (- (a + b)).
Proof. unfold pow2. rewrite <- !Z.pow_add_r by lia. f_equal. lia. Qed.

Lemma trunc_nonneg a : 0 <= significand a -> 0 <= trunc a.
Proof.
  intros Hs. rewrite trunc_div. apply Z.div_pos; [|apply pow2_pos].
  pose proof (pow2_pos (exponent a)). nia.
Qed.

(** [0 <= int(dim * 0.d) <= dim] for a dimension below [2^53]. *)
Lemma int_mul_tenths_bounds dim d :
  0 <= dim < 2 ^ 53 -> 0 <= d <= 10 -> 0 <= int_mul_tenths dim d <= dim.
Proof.
  intros Hdim Hd. split.
  - unfold int_mul_tenths. apply trunc_nonneg. unfold mul.
    pose proof (round_ratio_nonneg dim 1 ltac:(lia) ltac:(lia)) as HA.
    pose proof (round_ratio_nonneg d 10 ltac:(lia) ltac:(lia)) as HT.
    apply round_ratio_nonneg; [|apply pow2_pos].
    pose proof (pow2_pos (exponent (of_int dim) + exponent (tenths d))).
    repeat apply Z.mul_nonneg_nonneg; [exact HA | exact HT | lia].
  - pose proof (of_int_exact dim Hdim) as HA.
    pose proof (round_ratio_nonneg dim 1 ltac:(lia) ltac:(lia)) as HAs.
    pose proof (round_ratio_nonneg d 10 ltac:(lia) ltac:(lia)) as HTs.
    pose proof (round_ratio_mono d 10 10 10 ltac:(lia) ltac:(lia) ltac:(lia) ltac:(lia)) as HT.
    unfold float_le in HT.
    change (round_ratio 10 10) with (mk_float (2 ^ 52) (- 52)) in HT.
    cbn [significand exponent] in HT.
    change (pow2 (- 52)) with 1 in HT. change (pow2 (- - 52)) with (2 ^ 52) in HT.
    fold (of_int dim) in HAs. fold (tenths d) in HTs, HT.
    change (int_mul_tenths dim d)
      with (int_div (significand (of_int dim) * significand (tenths d)
                     * pow2 (exponent (of_int dim) + exponent (tenths d)))
                    (pow2 (- (exponent (of_int dim) + exponent (tenths d))))).
    set (sA := significand (of_int dim)) in *. set (eA := exponent (of_int dim)) in *.
    set (sT := significand (tenths d)) in *. set (eT := exponent (tenths d)) in *.
    pose proof (pow2_sum eA eT) as Hid.
    pose proof (pow2_pos eA). pose proof (pow2_pos (- eA)).
    pose proof (pow2_pos eT). pose proof (pow2_pos (- eT)).
    pose proof (pow2_pos (eA + eT)). pose proof (pow2_pos (- (eA + eT))).
    assert (HT' : sT * pow2 eT <= pow2 (- eT)) by nia.
    apply int_div_le; [|lia|lia].
    split; [nia|].
    set (G := pow2 (- eA) * pow2 (- eT)) in *.
    assert (HG : 0 < G) by (subst G; nia).
    apply (Z.mul_le_mono_pos_r _ _ G HG).
    replace (sA * sT * pow2 (eA + eT) * G) with (sA * sT * (pow2 (eA + eT) * G)) by ring.
    rewrite Hid.
    replace (sA * sT * (pow2 eA * pow2 eT * pow2 (- (eA + eT))))
      with ((sA * pow2 eA) * (sT * pow2 eT) * pow2 (- (eA + eT))) by ring.
    rewrite HA.
    replace (dim * pow2 (- (eA + eT)) * G)
      with (dim * pow2 (- eA) * pow2 (- eT) * pow2 (- (eA + eT))) by (subst G; ring).
    apply Z.mul_le_mono_nonneg_r; [lia|].
    apply Z.mul_le_mono_nonneg_l; [nia | exact HT'].
Qed.

End RoundingFacts.

Module EndpointFacts.

Lemma wrapped_requests w id st :
  requests_sent (snd (detect_sleeve_color_wrapped w id st)) =
    match SHIRT_OVERRIDES st !! KStr id with
    | Some _ => requests_sent st
    | None => requests_sent st ++ [asset_url id]
    end.
Proof.
  unfold detect_sleeve_color_wrapped, detect_try.
  destruct (SHIRT_OVERRIDES st !! KStr id); [reflexivity|].
  destruct (http_get w (asset_url id)) as [f | status_code content]; [reflexivity|].
  destruct (raise_for_status status_code); [reflexivity|].
  by destruct (image_open w content).
Qed.

Lemma add_override_cases data st :
  (status_code_of (fst (add_override data st)) <> 200 /\ snd (add_override data st) = st) \/
  (exists texture_id key color,
      data_get data "texture_id" = Some texture_id /\ truthy texture_id = true /\
      hashable texture_id = Some key /\
      data_get data "color" = Some color /\ len color = Some 3%nat /\
      add_override data st =
        (OverrideAdded (size (<[key := color]> (SHIRT_OVERRIDES st))),
         set_overrides (<[key := color]> (SHIRT_OVERRIDES st)) st)).
Proof.
  unfold add_override.
  destruct (data_get data "texture_id") as [texture_id|]; [|left; by split].
  destruct (data_get data "color") as [color|]; [|left; by split].
  destruct (truthy texture_id) eqn:Ht; [|left; by split].
  destruct (truthy color); [|left; by split]. cbn [negb orb].
  destruct (len color) as [n|] eqn:Hlen; [|left; by split].
  destruct (Nat.eqb_spec n 3) as [-> | _]; [|left; by split]. cbn [negb].
  destruct (hashable texture_id) as [key|] eqn:Hk; [|left; by split].
  right. exists texture_id, key, color. eauto 10.
Qed.

Lemma step_overrides st o :
  dom (SHIRT_OVERRIDES st) ⊆ dom (SHIRT_OVERRIDES (step st o)).
Proof.
  destruct o as [w id | data]; cbn [step].
  - by rewrite detect_overrides.
  - destruct (add_override_cases data st) as [[_ ->] | (t & key & color & _ & _ & _ & _ & _ & ->)];
      [done|].
    cbn [snd SHIRT_OVERRIDES set_overrides]. rewrite dom_insert_L. set_solver.
Qed.

Lemma is_digit_newline : is_digit newline = false.
Proof. reflexivity. Qed.

Lemma digits_to_end_spec s :
  digits_to_end s = true <->
  exists d, all_digits d = true /\ (s = d \/ s = (d ++ String newline "")%string).
Proof.
  induction s as [|c r IH]; cbn [digits_to_end].
  - split; [intros _; exists ""%string; by split; [|left] | done].
  - destruct (is_digit c) eqn:Hc.
    + rewrite IH. split.
      * intros (d & Hd & Hr). exists (String c d). split; [cbn; by rewrite Hc|].
        destruct Hr as [-> | ->]; [by left | by right].
      * intros (d & Hd & Hs). destruct d as [|c' d'].
        -- destruct Hs as [[=] | [= -> _]]. by rewrite is_digit_newline in Hc.
        -- cbn in Hd. apply andb_true_iff in Hd as [_ Hd'].
           exists d'. split; [exact Hd'|].
           destruct Hs as [[= _ ->] | [= _ ->]]; [by left | by right].
    + split.
      * intros [Hn Hr]%andb_true_iff.
        apply Ascii.eqb_eq in Hn as ->. apply String.eqb_eq in Hr as ->.
        exists ""%string. split; [reflexivity | by right].
      * intros (d & Hd & Hs). destruct d as [|c' d'].
        -- destruct Hs as [[=] | [= -> ->]].
           by rewrite Ascii.eqb_refl, String.eqb_refl.
        -- cbn in Hd. apply andb_true_iff in Hd as [Hc' _].
           destruct Hs as [[= -> _] | [= -> _]]; congruence.
Qed.

Lemma args_get_missing args name default :
  (forall v, ~ In (name, v) args) -> args_get args name default = default.
Proof.
  induction args as [|[k v] rest IH]; intros Hno; cbn [args_get]; [reflexivity|].
  destruct (String.eqb_spec k name) as [-> | _].
  - destruct (Hno v). by left.
  - apply IH. intros v' Hin. apply (Hno v'). by right.
Qed.

End EndpointFacts.

(* ===================================================================== *)
(** * Further properties of the server *)
(* ===================================================================== *)

Import MemoFacts EndpointFacts.

Local Set Warnings "-clear-no-such-hyp".


(** ** The memo table *)

Lemma initial_memo_ok : memo_ok initial.
Proof. split; [constructor | cbn; unfold maxsize; lia]. Qed.

(** X1.  Whatever requests a fresh process receives, the memo table of
    [detect_sleeve_color] never holds more than 100 entries and never holds
    an identifier twice. *)
Theorem memo_table_bounded (ops : list op) :
  (List.length (lru (run ops initial)) <= 100)%nat /\
  NoDup (map fst (lru (run ops initial))).
Proof.
  destruct (run_memo_ok ops initial initial_memo_ok) as [Hnd Hlen].
  split; [exact Hlen | exact Hnd].
Qed.

(** X2.  A memoised answer survives any sequence of requests in which
    fewer than 100 different other identifiers are detected: the next
    detection of the identifier returns the same value and sends no
    request, whatever the overrides and the remote source have become. *)
Theorem memo_entry_survives w w' id st ops :
  memo_ok st ->
  (size (others_detected id ops) < 100)%nat ->
  let r1 := detect_sleeve_color w id st in
  let st' := run ops (snd r1) in
  let r2 := detect_sleeve_color w' id st' in
  stays_cached id ops (snd r1) /\
  fst r2 = fst r1 /\
  requests_sent (snd r2) = requests_sent st'.
Proof.
  intros Hok Hsize. cbv zeta.
  assert (Hstay : stays_cached id ops (snd (detect_sleeve_color w id st))).
  { apply (survive_stays id ops _ ∅).
    - exact (step_memo_ok st (Detect w id) Hok).
    - destruct (detect_puts_first w id st) as [rest ->].
      exists [], rest. split; [reflexivity|]. by intros x ?%elem_of_nil.
    - by rewrite (left_id_L ∅ (∪)). }
  split; [exact Hstay|].
  pose proof (run_keeps_entry _ _ _ _ (detect_memoises w id st) Hstay) as Hget.
  by rewrite (detect_hit w' id _ _ Hget).
Qed.

Lemma memo_entry_survives_witness :
  let w := fixed_world 200 (Some navy) in
  let ops := [Detect offline "2"; AddOverride (override_body "1" (rgb 1 2 3));
              Detect offline "3"; Detect offline "2"] in
  memo_ok initial /\
  (size (others_detected "1" ops) < 100)%nat /\
  fst (detect_sleeve_color offline "1" (run ops (snd (detect_sleeve_color w "1" initial))))
  = rgb 10 20 30.
Proof.
  cbv zeta.
  assert (Hsize : (size (others_detected "1"
                    [Detect offline "2"; AddOverride (override_body "1" (rgb 1 2 3));
                     Detect offline "3"; Detect offline "2"]) < 100)%nat)
    by (vm_compute; lia).
  split; [exact initial_memo_ok|]. split; [exact Hsize|].
  destruct (memo_entry_survives (fixed_world 200 (Some navy)) offline "1" initial _
              initial_memo_ok Hsize) as (_ & -> & _).
  reflexivity.
Defined.

(** X3.  A memoised answer does not survive the detection of 100 different
    other identifiers: after them the identifier is no longer in the memo
    table, and its next detection runs the function body again. *)
Theorem memo_entry_evicted w id st ops :
  memo_ok st ->
  (id ∉ detected ops) ->
  (100 <= size (list_to_set (detected ops) : gset string))%nat ->
  let st' := run ops (snd (detect_sleeve_color w id st)) in
  cache_get id (lru st') = None /\
  forall w', fst (detect_sleeve_color w' id st') = fst (detect_sleeve_color_wrapped w' id st').
Proof.
  intros Hok Hno Hsize. cbv zeta.
  set (st1 := snd (detect_sleeve_color w id st)).
  assert (Hok1 : memo_ok st1) by exact (step_memo_ok st (Detect w id) Hok).
  destruct (run_memo_ok ops st1 Hok1) as [Hnd Hlen].
  assert (Hbehind0 : id ∈ map fst (lru st1) ->
            exists l1 l2 : list string, map fst (lru st1) = l1 ++ id :: l2 /\ (id ∉ l1) /\
                         forall x, x ∈ (∅ : gset string) -> x ∈ l1).
  { intros _. destruct (detect_puts_first w id st) as [rest Hrest].
    exists [], rest. split; [exact Hrest|]. split; [apply not_elem_of_nil | set_solver]. }
  pose proof (evict_run id ops st1 ∅ Hno Hbehind0) as Hbehind.
  assert (Hnone : cache_get id (lru (run ops st1)) = None).
  { apply cache_get_None. intros Hin.
    destruct (Hbehind Hin) as (l1 & l2 & HK & Hid & HS).
    rewrite <- (length_map fst), HK, length_app in Hlen. cbn [List.length] in Hlen.
    rewrite HK in Hnd. apply list.NoDup_app in Hnd as (Hnd1 & _ & _).
    assert (Hsub : (list_to_set (detected ops) : gset string) ⊆ list_to_set l1).
    { intros x Hx. apply elem_of_list_to_set. apply HS. set_solver. }
    apply subseteq_size in Hsub. rewrite (size_list_to_set l1) in Hsub by exact Hnd1.
    unfold maxsize in Hlen. lia. }
  split; [exact Hnone|].
  intros w'. by rewrite (detect_miss _ _ _ Hnone).
Qed.

Lemma memo_entry_evicted_witness :
  let w := fixed_world 200 (Some navy) in
  let ops := hundred_detections offline in
  memo_ok initial /\
  ("z"%string ∉ detected ops) /\
  (100 <= size (list_to_set (detected ops) : gset string))%nat /\
  cache_get "z" (lru (run ops (snd (detect_sleeve_color w "z" initial)))) = None.
Proof.
  cbv zeta.
  assert (Hno : "z"%string ∉ detected (hundred_detections offline)).
  { apply (bool_decide_unpack _). vm_compute. exact Logic.I. }
  assert (Hsize : (100 <= size (list_to_set (detected (hundred_detections offline))
                                 : gset string))%nat)
    by (vm_compute; lia).
  split; [exact initial_memo_ok|]. split; [exact Hno|]. split; [exact Hsize|].
  exact (proj1 (memo_entry_evicted (fixed_world 200 (Some navy)) "z" initial _
                  initial_memo_ok Hno Hsize)).
Defined.

(** ** The image analysis *)

(** X4.  The pool of the region loop is the concatenation, in region
    order, of the opaque pixels of every region: a pixel that lies in
    several boxes is pooled once for each of them. *)
Theorem pool_is_concatenation img areas :
  scan_areas img areas = flat_map (fun area => opaque_pixels (crop img area)) areas /\
  List.length (scan_areas img areas)
  = list_sum (map (fun area => List.length (opaque_pixels (crop img area))) areas).
Proof.
  split; [apply scan_areas_flat_map|].
  rewrite scan_areas_flat_map.
  induction areas as [|area rest IH]; [reflexivity|].
  cbn [flat_map map list_sum]. by rewrite length_app, IH.
Qed.

Lemma crop_ext img1 img2 area :
  (forall x y, (let '(x0, y0, x1, y1) := area in x0 <= x < x1 /\ y0 <= y < y1) ->
               pixel_at img1 x y = pixel_at img2 x y) ->
  crop img1 area = crop img2 area.
Proof.
  destruct area as [[[x0 y0] x1] y1]. intros Hext. unfold crop.
  apply map_ext_in. intros y Hy. apply map_ext_in. intros x Hx.
  apply in_zrange in Hx, Hy. by apply Hext.
Qed.

Lemma scan_areas_ext img1 img2 areas :
  (forall area, In area areas -> crop img1 area = crop img2 area) ->
  scan_areas img1 areas = scan_areas img2 areas.
Proof.
  intros Hext. rewrite !scan_areas_flat_map.
  induction areas as [|area rest IH]; [reflexivity|].
  cbn [flat_map]. rewrite (Hext area) by (by left).
  rewrite IH; [reflexivity|]. intros a Ha. apply Hext. by right.
Qed.

(** X5.  When some region holds an opaque pixel, the colour depends on the
    pixels inside the four boxes only: two images of the same size that
    agree inside the boxes get the same colour, whatever lies outside. *)
Theorem analysis_ignores_outside img1 img2 :
  width img1 = width img2 -> height img1 = height img2 ->
  (forall area x y,
     In area (detection_areas (width img1) (height img1)) ->
     (let '(x0, y0, x1, y1) := area in x0 <= x < x1 /\ y0 <= y < y1) ->
     pixel_at img1 x y = pixel_at img2 x y) ->
  scan_areas img1 (detection_areas (width img1) (height img1)) <> [] ->
  analyse img1 = analyse img2.
Proof.
  intros Hw Hh Hext Hne. unfold analyse, analyse_with. rewrite <- Hw, <- Hh.
  rewrite <- (scan_areas_ext img1 img2).
  - destruct (scan_areas img1 _) as [|p ps]; [done | reflexivity].
  - intros area Ha. apply crop_ext. intros x y Hxy. by apply (Hext area).
Qed.

Lemma analysis_ignores_outside_witness :
  width navy = width navy_red_corner /\ height navy = height navy_red_corner /\
  (forall area x y,
     In area (detection_areas (width navy) (height navy)) ->
     (let '(x0, y0, x1, y1) := area in x0 <= x < x1 /\ y0 <= y < y1) ->
     pixel_at navy x y = pixel_at navy_red_corner x y) /\
  scan_areas navy (detection_areas (width navy) (height navy)) <> [] /\
  getpixel navy 0 0 <> getpixel navy_red_corner 0 0 /\
  analyse navy = analyse navy_red_corner.
Proof.
  assert (Hext : forall area x y,
             In area (detection_areas (width navy) (height navy)) ->
             (let '(x0, y0, x1, y1) := area in x0 <= x < x1 /\ y0 <= y < y1) ->
             pixel_at navy x y = pixel_at navy_red_corner x y).
  { intros area x y Ha Hxy.
    assert (Hx : 1 <= x).
    { change (detection_areas (width navy) (height navy))
        with [(7, 4, 9, 6); (1, 4, 3, 6); (1, 3, 9, 7); (6, 2, 8, 4)] in Ha.
      destruct Ha as [<- | [<- | [<- | [<- | []]]]]; lia. }
    unfold pixel_at, navy, navy_red_corner, solid. cbn [width height getpixel].
    destruct (Z.eqb_spec x 0) as [-> | _]; [lia | reflexivity]. }
  assert (Hne : scan_areas navy (detection_areas (width navy) (height navy)) <> [])
    by (vm_compute; discriminate).
  split; [reflexivity|]. split; [reflexivity|]. split; [exact Hext|]. split; [exact Hne|].
  split; [vm_compute; discriminate|].
  exact (analysis_ignores_outside navy navy_red_corner eq_refl eq_refl Hext Hne).
Defined.

(** X6.  For fewer than [2^45] pooled pixels with 8-bit channels, each
    channel of the colour is the floor of the exact mean of that channel:
    the mean is truncated, never rounded up. *)
Theorem mean_color_is_floor ps :
  ps <> [] -> Z.of_nat (List.length ps) < 2 ^ 45 ->
  (forall p, In p ps -> 0 <= red p <= 255 /\ 0 <= green p <= 255 /\ 0 <= blue p <= 255) ->
  mean_color ps =
    rgb (channel_sum red ps / Z.of_nat (List.length ps))
        (channel_sum green ps / Z.of_nat (List.length ps))
        (channel_sum blue ps / Z.of_nat (List.length ps)).
Proof.
  intros Hne Hlen Hall. unfold mean_color.
  assert (Hn : 0 < Z.of_nat (List.length ps)) by (destruct ps; [done | cbn [List.length]; lia]).
  rewrite !RoundingFacts.int_div_floor; try lia; try reflexivity;
    apply channel_sum_range; intros p Hp; by destruct (Hall p Hp) as (? & ? & ?).
Qed.

Lemma mean_color_is_floor_witness :
  let ps := [mk_pixel 255 1 0 255; mk_pixel 254 0 0 200; mk_pixel 254 0 0 129] in
  ps <> [] /\ Z.of_nat (List.length ps) < 2 ^ 45 /\
  (forall p, In p ps -> 0 <= red p <= 255 /\ 0 <= green p <= 255 /\ 0 <= blue p <= 255) /\
  mean_color ps = rgb 254 0 0.
Proof.
  cbv zeta.
  assert (Hne : [mk_pixel 255 1 0 255; mk_pixel 254 0 0 200; mk_pixel 254 0 0 129] <> [])
    by discriminate.
  assert (Hlen : Z.of_nat (List.length
             [mk_pixel 255 1 0 255; mk_pixel 254 0 0 200; mk_pixel 254 0 0 129]) < 2 ^ 45)
    by (cbn; lia).
  assert (Hall : forall p,
             In p [mk_pixel 255 1 0 255; mk_pixel 254 0 0 200; mk_pixel 254 0 0 129] ->
             0 <= red p <= 255 /\ 0 <= green p <= 255 /\ 0 <= blue p <= 255).
  { intros p [<- | [<- | [<- | []]]]; cbn; lia. }
  split; [exact Hne|]. split; [exact Hlen|]. split; [exact Hall|].
  rewrite (mean_color_is_floor _ Hne Hlen Hall). reflexivity.
Defined.

(** X7.  For an image smaller than [2^53] in each direction, every
    detection box lies inside the image and is not inverted:
    [0 <= left <= right <= width] and [0 <= upper <= lower <= height],
    although the bounds are computed in floating point. *)
Theorem detection_areas_inside w h :
  0 <= w < 2 ^ 53 -> 0 <= h < 2 ^ 53 ->
  Forall (fun area : box =>
            let '(x0, y0, x1, y1) := area in
            0 <= x0 <= x1 /\ x1 <= w /\ 0 <= y0 <= y1 /\ y1 <= h)
         (detection_areas w h).
Proof.
  intros Hw Hh. unfold detection_areas.
  assert (Hb : forall dim d, 0 <= dim < 2 ^ 53 -> 0 <= d <= 10 ->
                 0 <= Binary64.int_mul_tenths dim d <= dim)
    by exact RoundingFacts.int_mul_tenths_bounds.
  assert (Hm : forall dim d1 d2, 0 <= dim -> 0 <= d1 <= d2 ->
                 Binary64.int_mul_tenths dim d1 <= Binary64.int_mul_tenths dim d2)
    by exact Binary64Facts.int_mul_tenths_mono.
  repeat (apply Forall_cons;
          [repeat split; first [apply Hm; lia | apply Hb; lia]|]).
  apply Forall_nil.
Qed.

Lemma detection_areas_inside_witness :
  0 <= 585 < 2 ^ 53 /\ 0 <= 559 < 2 ^ 53 /\
  Forall (fun area : box =>
            let '(x0, y0, x1, y1) := area in
            0 <= x0 <= x1 /\ x1 <= 585 /\ 0 <= y0 <= y1 /\ y1 <= 559)
         (detection_areas 585 559).
Proof.
  assert (Hw : 0 <= 585 < 2 ^ 53) by lia.
  assert (Hh : 0 <= 559 < 2 ^ 53) by lia.
  split; [exact Hw|]. split; [exact Hh|].
  exact (detection_areas_inside 585 559 Hw Hh).
Defined.


(** ** Requests to the remote source *)

(** X8.  A detection sends exactly one request, to the asset URL of the
    identifier, when the identifier is neither memoised nor overridden,
    and no request at all otherwise. *)
Theorem detection_request_accounting w id st :
  requests_sent (snd (detect_sleeve_color w id st)) =
    match cache_get id (lru st), SHIRT_OVERRIDES st !! KStr id with
    | None, None => requests_sent st ++ [asset_url id]
    | _, _ => requests_sent st
    end.
Proof.
  destruct (cache_get id (lru st)) as [v|] eqn:Hc.
  - by rewrite (detect_hit _ _ _ _ Hc).
  - rewrite (detect_miss _ _ _ Hc). cbn [snd requests_sent set_lru].
    rewrite wrapped_requests. by destruct (SHIRT_OVERRIDES st !! KStr id).
Qed.

(** ** The override handler *)

(** X9.  An override submitted before the identifier was ever detected is
    what the next detection returns: the colour comes back unchanged, no
    request is sent, and the colour is memoised. *)
Theorem override_before_detection_wins w data id a b c st :
  data_get data "texture_id" = Some (JStr id) -> id <> ""%string ->
  data_get data "color" = Some (JArr [a; b; c]) ->
  cache_get id (lru st) = None ->
  let r := detect_sleeve_color w id (snd (add_override data st)) in
  fst r = JArr [a; b; c] /\
  requests_sent (snd r) = requests_sent st /\
  cache_get id (lru (snd r)) = Some (JArr [a; b; c]).
Proof.
  intros Hid Hne Hcol Hc. cbv zeta.
  rewrite (add_override_stores _ _ _ (KStr id) _ _ _ Hid (truthy_nonempty_string _ Hne)
             eq_refl Hcol).
  cbn [snd].
  set (st1 := set_overrides _ st).
  assert (Hov : SHIRT_OVERRIDES st1 !! KStr id = Some (JArr [a; b; c]))
    by apply lookup_insert_eq.
  assert (Hc1 : cache_get id (lru st1) = None) by exact Hc.
  assert (Hret : fst (detect_sleeve_color w id st1) = JArr [a; b; c]).
  { rewrite (detect_miss _ _ _ Hc1). cbn [fst].
    unfold detect_sleeve_color_wrapped. by rewrite (detect_try_override _ _ _ _ Hov). }
  split; [exact Hret|]. split.
  - rewrite (detect_miss _ _ _ Hc1). cbn [snd requests_sent set_lru].
    rewrite wrapped_requests, Hov. reflexivity.
  - by rewrite detect_memoises, Hret.
Qed.

Lemma override_before_detection_wins_witness :
  let data := override_body "7" (rgb 1 2 3) in
  data_get data "texture_id" = Some (JStr "7") /\ "7"%string <> ""%string /\
  data_get data "color" = Some (rgb 1 2 3) /\
  cache_get "7" (lru initial) = None /\
  fst (detect_sleeve_color (fixed_world 200 (Some navy)) "7" (snd (add_override data initial)))
  = rgb 1 2 3.
Proof.
  cbv zeta.
  assert (Hid : data_get (override_body "7" (rgb 1 2 3)) "texture_id" = Some (JStr "7"))
    by reflexivity.
  assert (Hne : "7"%string <> ""%string) by discriminate.
  assert (Hcol : data_get (override_body "7" (rgb 1 2 3)) "color" = Some (rgb 1 2 3))
    by reflexivity.
  assert (Hc : cache_get "7" (lru initial) = @None value) by reflexivity.
  split; [exact Hid|]. split; [exact Hne|]. split; [exact Hcol|]. split; [exact Hc|].
  exact (proj1 (override_before_detection_wins (fixed_world 200 (Some navy)) _ "7" _ _ _
                  initial Hid Hne Hcol Hc)).
Defined.

(** X10.  [/add_override] never touches the memo table and never sends a
    request; a reply other than 200 leaves the whole state as it was; a 200
    reply changes one binding of the override table, to the submitted
    colour, which has length 3, and reports the size of the new table. *)
Theorem add_override_effect data st :
  let r := add_override data st in
  lru (snd r) = lru st /\
  requests_sent (snd r) = requests_sent st /\
  ((status_code_of (fst r) <> 200 /\ snd r = st) \/
   (exists texture_id key color,
       data_get data "texture_id" = Some texture_id /\ hashable texture_id = Some key /\
       data_get data "color" = Some color /\ len color = Some 3%nat /\
       SHIRT_OVERRIDES (snd r) = <[key := color]> (SHIRT_OVERRIDES st) /\
       fst r = OverrideAdded (size (SHIRT_OVERRIDES (snd r))))).
Proof.
  cbv zeta. destruct (add_override_frame data st) as [Hl Hr].
  split; [exact Hl|]. split; [exact Hr|].
  destruct (add_override_cases data st)
    as [H | (t & key & color & Ht & _ & Hk & Hcol & Hlen & Heq)]; [by left|].
  right. exists t, key, color. rewrite Heq. cbn [fst snd SHIRT_OVERRIDES set_overrides].
  eauto 10.
Qed.

(** X11.  No request ever removes an override: along any sequence of
    requests the set of overridden keys only grows, and so does the total
    that [/add_override] reports. *)
Theorem overrides_never_removed ops st :
  dom (SHIRT_OVERRIDES st) ⊆ dom (SHIRT_OVERRIDES (run ops st)) /\
  (size (SHIRT_OVERRIDES st) <= size (SHIRT_OVERRIDES (run ops st)))%nat.
Proof.
  assert (Hdom : dom (SHIRT_OVERRIDES st) ⊆ dom (SHIRT_OVERRIDES (run ops st))).
  { revert st. induction ops as [|o rest IH]; intros st; [done|].
    change (run (o :: rest) st) with (run rest (step st o)).
    etrans; [apply step_overrides | apply IH]. }
  split; [exact Hdom|].
  apply subseteq_size in Hdom. by rewrite !size_dom in Hdom.
Qed.

(** ** [GET /analyze] *)

(** X12.  The identifier check accepts exactly the non-empty strings of
    ASCII digits and those strings followed by one final newline ([$] also
    matches just before a newline that ends the string). *)
Theorem numeric_id_characterised s :
  re_match_numeric s = true <->
  exists d, d <> ""%string /\ all_digits d = true /\
            (s = d \/ s = (d ++ String newline "")%string).
Proof.
  destruct s as [|c r]; cbn [re_match_numeric].
  - split; [done|]. intros (d & Hne & _ & [<- | Hs]); [done|]. by destruct d.
  - rewrite andb_true_iff, digits_to_end_spec. split.
    + intros (Hc & d & Hd & Hr). exists (String c d).
      split; [done|]. split; [cbn; by rewrite Hc|].
      destruct Hr as [-> | ->]; [by left | by right].
    + intros (d & Hne & Hd & Hs). destruct d as [|c' d']; [done|].
      cbn in Hd. apply andb_true_iff in Hd as [Hc' Hd'].
      destruct Hs as [[= -> ->] | [= -> ->]]; (split; [exact Hc'|]); exists d';
        (split; [exact Hd'|]); [by left | by right].
Qed.

(** X13.  A request without a [texture_id] parameter, or with one that
    fails the check, is answered 400 and changes nothing: no detection
    runs, no request is sent, nothing is memoised. *)
Theorem analyze_shirt_rejects w args st :
  (forall v, ~ In ("texture_id"%string, v) args) \/
  re_match_numeric (args_get args "texture_id" "") = false ->
  analyze_shirt w args st = (NotNumeric, st).
Proof.
  intros H. unfold analyze_shirt.
  assert (Hm : re_match_numeric (args_get args "texture_id" "") = false).
  { destruct H as [Hno | H]; [|exact H]. by rewrite (args_get_missing _ _ _ Hno). }
  by rewrite Hm.
Qed.

Lemma analyze_shirt_rejects_witness :
  ((forall v, ~ In ("texture_id"%string, v) [("id"%string, "12"%string)]) \/
   re_match_numeric (args_get [("id"%string, "12"%string)] "texture_id" "") = false) /\
  analyze_shirt offline [("id"%string, "12"%string)] initial = (NotNumeric, initial) /\
  analyze_shirt offline [("texture_id"%string, "12a"%string)] initial = (NotNumeric, initial).
Proof.
  assert (H1 : (forall v, ~ In ("texture_id"%string, v) [("id"%string, "12"%string)]) \/
               re_match_numeric (args_get [("id"%string, "12"%string)] "texture_id" "") = false)
    by (right; reflexivity).
  split; [exact H1|]. split.
  - exact (analyze_shirt_rejects offline _ initial H1).
  - exact (analyze_shirt_rejects offline [("texture_id"%string, "12a"%string)] initial
             (or_intror eq_refl)).
Defined.


